(** * Verification of the bibliography enrichment pipeline (doi.py)

    A shallow embedding of [doi.py]: the HTTP helper with rate-limit
    backoff, the BibTeX text cleanup, the three identifier resolvers, the
    per-record resolution pipeline with its duplicate guard [used_dois],
    and the span reassembler.

    Python [str] values are modelled as lists of 8-bit characters (the
    Latin-1 range of code points); the character classes of the [re]
    module ([\s], [\w], [[A-Za-z]]) and [str.lower] are Python's own,
    restricted to that range. *)

From Stdlib Require Import Ascii String List Lia Sorted.
From stdpp Require Import base gmap strings list.

Import ListNotations.
Local Open Scope char_scope.
Local Open Scope list_scope.

Abbreviation text := (list ascii).

(** String literals of the source are written [str "..."]. *)
Definition str (s : string) : text := list_ascii_of_string s.

(* ===================================================================== *)
(** ** Character classes *)
(* ===================================================================== *)

Definition code (c : ascii) : nat := nat_of_ascii c.

Definition between (lo hi n : nat) : bool := ((lo <=? n) && (n <=? hi))%nat.

(** [[A-Za-z]] *)
Definition is_letter (c : ascii) : bool :=
  between 65 90 (code c) || between 97 122 (code c).

(** [\s] of a Unicode pattern, which is also [str.isspace]. *)
Definition is_space (c : ascii) : bool :=
  between 9 13 (code c) || between 28 32 (code c)
  || (code c =? 133)%nat || (code c =? 160)%nat.

(** [\w] of a Unicode pattern: alphanumeric characters and the underscore. *)
Definition is_word (c : ascii) : bool :=
  between 48 57 (code c) || between 65 90 (code c) || (code c =? 95)%nat
  || between 97 122 (code c)
  || (code c =? 170)%nat || between 178 179 (code c) || (code c =? 181)%nat
  || between 185 186 (code c) || between 188 190 (code c)
  || between 192 214 (code c) || between 216 246 (code c)
  || between 248 255 (code c).

(** [str.lower] on one character. In the Latin-1 range the lower case of
    a character is one character of that range. *)
Definition lower_char (c : ascii) : ascii :=
  if between 65 90 (code c) || between 192 214 (code c)
     || between 216 222 (code c)
  then ascii_of_nat (code c + 32) else c.

Definition lower (s : text) : text := map lower_char s.

Definition ascii_eqb (a b : ascii) : bool := Ascii.eqb a b.
Arguments ascii_eqb : simpl never.

(** Equality of two characters under [re.IGNORECASE]. *)
Definition eqb_ci (a b : ascii) : bool :=
  ascii_eqb (lower_char a) (lower_char b).

(* ===================================================================== *)
(** ** String operations of the Python standard library *)
(* ===================================================================== *)

(** [s.startswith(p)], returning what follows the prefix. *)
Fixpoint strip_prefix (p s : text) : option text :=
  match p, s with
  | [], _ => Some s
  | a :: p', b :: s' => if ascii_eqb a b then strip_prefix p' s' else None
  | _ :: _, [] => None
  end.

(** The same for a literal of a pattern compiled with [re.IGNORECASE]. *)
Fixpoint strip_prefix_ci (p s : text) : option text :=
  match p, s with
  | [], _ => Some s
  | a :: p', b :: s' => if eqb_ci a b then strip_prefix_ci p' s' else None
  | _ :: _, [] => None
  end.

(** [sub in s] *)
Fixpoint contains (sub s : text) : bool :=
  match strip_prefix sub s with
  | Some _ => true
  | None => match s with
            | [] => false
            | _ :: s' => contains sub s'
            end
  end.

(** The longest prefix of characters of a class, and the rest: a greedy
    [c*] of a pattern. *)
Fixpoint span (f : ascii -> bool) (s : text) : text * text :=
  match s with
  | a :: s' => if f a then let (u, v) := span f s' in (a :: u, v) else ([], s)
  | [] => ([], [])
  end.

(** The text before the first character of a class and the text from that
    character on; [None] when no character of the class occurs. *)
Fixpoint break_at (f : ascii -> bool) (s : text) : option (text * text) :=
  match s with
  | [] => None
  | a :: s' => if f a then Some ([], s)
               else match break_at f s' with
                    | Some (u, v) => Some (a :: u, v)
                    | None => None
                    end
  end.

(** [s.strip()] *)
Definition lstrip (s : text) : text := snd (span is_space s).
Definition rstrip (s : text) : text := rev (lstrip (rev s)).
Definition strip (s : text) : text := rstrip (lstrip s).

(** [s.rstrip(c)] for a one-character argument. *)
Definition rstrip_char (c : ascii) (s : text) : text :=
  rev (snd (span (ascii_eqb c) (rev s))).

(** [s.replace(a, b)] for one-character arguments. *)
Definition replace_char (a b : ascii) (s : text) : text :=
  map (fun c => if ascii_eqb a c then b else c) s.

(** [s.split(sep)] for a non-empty separator: [cur] holds, reversed, the
    piece being read, and [skip] counts the characters of a separator that
    are still to be passed over. *)
Fixpoint split_aux (sep : text) (skip : nat) (cur : text) (s : text)
  : list text :=
  match s with
  | [] => [rev cur]
  | a :: s' =>
      match skip with
      | S k => split_aux sep k cur s'
      | O => match strip_prefix sep s with
             | Some _ => rev cur :: split_aux sep (length sep - 1) [] s'
             | None => split_aux sep 0 (a :: cur) s'
             end
      end
  end.

Definition split (sep s : text) : list text := split_aux sep 0 [] s.

(** [l[-1]] on a list that [split] returned (never empty). *)
Definition last_piece (l : list text) : text := List.last l [].

(* ===================================================================== *)
(** ** Regular expressions of the source

    Each pattern of the source is translated into a matcher that, given the
    text from a position on, returns the groups and the text after the
    match. The patterns used are deterministic: a greedy class repetition
    is always followed by a character outside the class, and a lazy [.*?]
    by a literal, so the backtracking matcher of [re] has one way to
    succeed at a position. *)
(* ===================================================================== *)

(** [re.search]: the leftmost position at which the matcher succeeds. *)
Fixpoint re_search {A} (m : text -> option A) (s : text) : option A :=
  match m s with
  | Some r => Some r
  | None => match s with
            | [] => None
            | _ :: s' => re_search m s'
            end
  end.

(** [re.sub] for a matcher that returns the replacement of the match and
    the text after it: scanning left to right, a match is replaced and the
    scan resumes after it; other characters are copied. [skip] counts the
    characters of the current match still to be passed over. *)
Fixpoint re_sub_aux (m : text -> option (text * text)) (skip : nat) (s : text)
  : text :=
  match s with
  | [] => []
  | a :: s' =>
      match skip with
      | S k => re_sub_aux m k s'
      | O => match m s with
             | Some (out, rest) =>
                 out ++ re_sub_aux m (length s' - length rest) s'
             | None => a :: re_sub_aux m 0 s'
             end
      end
  end.

Definition re_sub (m : text -> option (text * text)) (s : text) : text :=
  re_sub_aux m 0 s.

(* ===================================================================== *)
(** ** BibTeX text cleanup *)
(* ===================================================================== *)

(** The first pattern of [clean_protected_case], compiled with [re.DOTALL],
    at one position: the literal [title], white space, [=], white space
    (group 1), two opening braces, a letter (group 2), a closing brace, a
    lazy run of any characters (group 3) and a closing brace. Returns the
    three groups and the text after the match. *)
Definition match_title (s : text) : option (text * ascii * text * text) :=
  match strip_prefix (str "title") s with
  | None => None
  | Some s1 =>
      let (ws1, s2) := span is_space s1 in
      match strip_prefix (str "=") s2 with
      | Some s3 =>
          let (ws2, s4) := span is_space s3 in
          match strip_prefix (str "{{") s4 with
          | Some (c :: s5) =>
              if is_letter c then
                match strip_prefix (str "}") s5 with
                | Some s6 =>
                    match break_at (ascii_eqb "}") s6 with
                    | Some (g3, _ :: rest) =>
                        Some (str "title" ++ ws1 ++ "=" :: ws2, c, g3, rest)
                    | _ => None
                    end
                | None => None
                end
              else None
          | _ => None
          end
      | None => None
      end
  end.

(** The replacement function of the first substitution:
    [f"{m.group(1)}{{{m.group(2)+m.group(3)}}}"]. *)
Definition merge_match (s : text) : option (text * text) :=
  match match_title s with
  | Some (g1, g2, g3, rest) => Some (g1 ++ "{" :: g2 :: g3 ++ ["}"], rest)
  | None => None
  end.

(** The pattern [\{([A-Za-z])\}] with the replacement [\1]. *)
Definition letter_match (s : text) : option (text * text) :=
  match strip_prefix (str "{") s with
  | Some (c :: s1) =>
      if is_letter c then
        match strip_prefix (str "}") s1 with
        | Some rest => Some ([c], rest)
        | None => None
        end
      else None
  | _ => None
  end.

Definition clean_protected_case (bibtex_str : text) : text :=
  let bibtex_str := re_sub merge_match bibtex_str in
  let bibtex_str := re_sub letter_match bibtex_str in
  bibtex_str.

(* ===================================================================== *)
(** ** Constants *)
(* ===================================================================== *)

Definition DOI2BIB_URL : text := str "https://doi2bib.org/bib/".
Definition CROSSREF_API_WORKS : text := str "https://api.crossref.org/works".
Definition ARXIV_ABS_URL : text := str "https://arxiv.org/abs/".
Definition MAX_RETRIES : nat := 3.
Definition BACKOFF_FACTOR : nat := 1.

(* ===================================================================== *)
(** ** The network, exceptions and the state of a run *)
(* ===================================================================== *)

(** The arguments of one [requests.get] call. *)
Record Request := {
  req_url : text;
  req_params : list (text * text);
  req_headers : list (text * text)
}.

(** One candidate of a metadata search: [item.get('title')] is absent or a
    list of titles, [item['DOI']] may be absent. *)
Record Item := {
  item_title : option (list text);
  item_DOI : option text
}.

(** A [requests.Response]: [resp_json] is the value of
    [resp.json().get('message', {}).get('items', [])], or [None] when the
    body is not JSON. *)
Record Response := {
  status_code : nat;
  resp_text : text;
  resp_json : option (list Item)
}.

(** What [requests.get] does: it returns a response or raises a transport
    error (time-out, DNS). *)
Inductive Outcome :=
| Replied (r : Response)
| Failed.

Inductive ValueMsg :=
| NoCandidates (title : text)
| NoExactMatch (title : text)
| NoJournalDOI (arxiv_id : text).

(** The exceptions the program can meet; all derive from [Exception]. *)
Inductive exn :=
| HTTPError (response : Response)
| ConnectionError
| ValueError (msg : ValueMsg)
| JSONDecodeError
| IndexError
| KeyError (k : text)
| AttributeError
| UnboundLocalError.

(** The lines the program prints. *)
Inductive Line :=
| WarnRetry (url : text) (wait : nat)
| Doi2bibMiss (doi : text)
| SkipDuplicate (doi key : text)
| MetadataFailed (key : text) (e : exn)
| Finished.

(** What a run does, in order. [EvFetch doi used] is a ghost event: it
    records the entry into [fetch_bibtex_from_doi] with the value of
    [used_dois] at that instant. *)
Inductive Event :=
| EvGet (r : Request)
| EvSleep (secs : nat)
| EvPrint (l : Line)
| EvFetch (doi : text) (used : gset text).

(** The module-level set [used_dois], the number of requests sent so far
    and what happened so far, most recent event first. *)
Record State := {
  used_dois : gset text;
  clock : nat;
  trace : list Event
}.

Definition initial_state : State :=
  {| used_dois := ∅; clock := 0; trace := [] |}.

Inductive Res (A : Type) :=
| Ok (a : A)
| Raise (e : exn).
Arguments Ok {A} a.
Arguments Raise {A} e.

(** Computations: a result or an exception, and the state left behind
    (the state survives an exception, as in Python). *)
Definition M (A : Type) : Type := State -> Res A * State.

Definition ret {A} (a : A) : M A := fun st => (Ok a, st).

Definition raise {A} (e : exn) : M A := fun st => (Raise e, st).

Definition bind {A B} (m : M A) (k : A -> M B) : M B :=
  fun st => match m st with
            | (Ok a, st') => k a st'
            | (Raise e, st') => (Raise e, st')
            end.

(** [try: m except ... as e: h e] *)
Definition try_except {A} (m : M A) (h : exn -> M A) : M A :=
  fun st => match m st with
            | (Ok a, st') => (Ok a, st')
            | (Raise e, st') => h e st'
            end.

#[global] Instance M_ret : MRet M := @ret.
#[global] Instance M_bind : MBind M := fun A B k m => bind m k.

Definition emit (ev : Event) : M unit :=
  fun st => (Ok tt, {| used_dois := used_dois st; clock := clock st;
                       trace := ev :: trace st |}).

Definition print (l : Line) : M unit := emit (EvPrint l).

Definition sleep (secs : nat) : M unit := emit (EvSleep secs).

Definition get_used : M (gset text) := fun st => (Ok (used_dois st), st).

(** [used_dois.add(doi)] *)
Definition used_add (doi : text) : M unit :=
  fun st => (Ok tt, {| used_dois := {[doi]} ∪ used_dois st; clock := clock st;
                       trace := trace st |}).

(** A parsed entry of [bibtexparser]: its key and its fields. *)
Record Entry := {
  ID : text;
  fields : gmap text text
}.

(** What the program takes from outside: the servers (the answer to the
    n-th request of the run), today's date, and the writer of
    [bibtexparser] applied to a database of one entry. *)
Record Env := {
  server : nat -> Request -> Outcome;
  today_year : text;
  today_iso : text;
  writer_write : Entry -> text
}.

(** [resp.raise_for_status()] of [requests]: client and server error
    statuses raise. *)
Definition is_error_status (status : nat) : bool :=
  ((400 <=? status) && (status <? 600))%nat.

Definition raise_for_status (resp : Response) : M unit :=
  if is_error_status (status_code resp) then raise (HTTPError resp)
  else ret tt.

(** Attribute access on the value [http_get] returned. *)
Definition attr {A} (f : Response -> A) (r : option Response) : M A :=
  match r with
  | Some resp => ret (f resp)
  | None => raise AttributeError
  end.

Section Pipeline.

Variable E : Env.

Definition requests_get (req : Request) : M Response :=
  fun st =>
    let st' := {| used_dois := used_dois st; clock := S (clock st);
                  trace := EvGet req :: trace st |} in
    match server E (clock st) req with
    | Replied r => (Ok r, st')
    | Failed => (Raise ConnectionError, st')
    end.

(* ===================================================================== *)
(** ** HTTP helper with rate-limit backoff *)
(* ===================================================================== *)

(** The loop of [http_get] over the remaining values of [attempt]; [resp]
    is the local variable of that name. The value is [None] when the
    function falls off its end. *)
Fixpoint http_get_loop (attempts : list nat) (req : Request)
    (resp : option Response) : M (option Response) :=
  match attempts with
  | attempt :: rest =>
      resp ← requests_get req;
      if (status_code resp =? 429)%nat then
        let wait := BACKOFF_FACTOR * 2 ^ (attempt - 1) in
        print (WarnRetry (req_url req) wait) ;;
        sleep wait ;;
        http_get_loop rest req (Some resp)
      else
        raise_for_status resp ;;
        ret (Some resp)
  | [] =>
      match resp with
      | Some resp => raise_for_status resp ;; ret None
      | None => raise UnboundLocalError
      end
  end.

Definition http_get (req : Request) : M (option Response) :=
  http_get_loop (seq 1 MAX_RETRIES) req None.

Definition plain (url : text) : Request :=
  {| req_url := url; req_params := []; req_headers := [] |}.

(* ===================================================================== *)
(** ** Fetch BibTeX by DOI *)
(* ===================================================================== *)

Definition fetch_bibtex_from_doi (doi : text) : M text :=
  used ← get_used;
  emit (EvFetch doi used) ;;
  let url := DOI2BIB_URL ++ doi in
  text ← try_except
            (r ← http_get (plain url); attr resp_text r)
            (fun e =>
               match e with
               | HTTPError response =>
                   if (status_code response =? 404)%nat then
                     print (Doi2bibMiss doi) ;;
                     let url2 := CROSSREF_API_WORKS ++ "/" :: doi
                                 ++ str "/transform/application/x-bibtex" in
                     r ← http_get
                            {| req_url := url2; req_params := [];
                               req_headers :=
                                 [(str "Accept", str "application/x-bibtex")] |};
                     attr resp_text r
                   else raise e
               | _ => raise e
               end);
  ret (clean_protected_case text).

(* ===================================================================== *)
(** ** Search CrossRef by title and author *)
(* ===================================================================== *)

Definition is_markup (c : ascii) : bool :=
  ascii_eqb c "\" || ascii_eqb c "{" || ascii_eqb c "}".

(** The inner function [normalize]: non-word characters removed, then
    lower case. *)
Definition normalize (s : text) : text := lower (filter is_word s).

Definition text_eqb (a b : text) : bool := bool_decide (a = b).

(** [item.get('title', [""])[0]]: [None] stands for the [IndexError] of an
    empty list of titles. *)
Definition candidate_title (item : Item) : option text :=
  match item_title item with
  | None => Some []
  | Some [] => None
  | Some (t :: _) => Some t
  end.

(** The loop over the candidates; [None] when it ends without [return]. *)
Fixpoint first_exact (target_norm : text) (items : list Item)
  : M (option text) :=
  match items with
  | [] => ret None
  | item :: rest =>
      cand ← match candidate_title item with
             | Some t => ret t
             | None => raise IndexError
             end;
      if text_eqb (normalize cand) target_norm then
        match item_DOI item with
        | Some d => ret (Some d)
        | None => raise (KeyError (str "DOI"))
        end
      else first_exact target_norm rest
  end.

(** The title without backslashes and braces, stripped. *)
Definition clean_title (title : text) : text :=
  strip (filter (fun c => negb (is_markup c)) title).

(** The request of the metadata search. *)
Definition search_request (title_clean author : text) : Request :=
  let params := [(str "query.title", title_clean);
                 (str "query.author", author);
                 (str "rows", str "5")] in
  {| req_url := CROSSREF_API_WORKS; req_params := params;
     req_headers := [(str "Accept", str "application/json")] |}.

Definition search_doi_by_metadata (title author : text) : M text :=
  let title_clean := clean_title title in
  resp ← http_get (search_request title_clean author);
  json ← attr resp_json resp;
  items ← match json with
           | Some items => ret items
           | None => raise JSONDecodeError
           end;
  match items with
  | [] => raise (ValueError (NoCandidates title_clean))
  | _ :: _ =>
      let target_norm := normalize title_clean in
      found ← first_exact target_norm items;
      match found with
      | Some d => ret d
      | None => raise (ValueError (NoExactMatch title_clean))
      end
  end.

(* ===================================================================== *)
(** ** DOI of an arXiv abstract page *)
(* ===================================================================== *)

Definition is_quote (c : ascii) : bool := ascii_eqb c (ascii_of_nat 34).
Definition is_newline (c : ascii) : bool := ascii_eqb c (ascii_of_nat 10).

(** The pattern of [extract_arxiv_doi] at one position: an [href]
    attribute whose value starts with [http] or [https], [://doi], any
    character but a newline, [org/], and runs up to the closing quote.
    Returns group 1, the value of the attribute. *)
Definition match_href (s : text) : option text :=
  match strip_prefix (str "href=" ++ [ascii_of_nat 34] ++ str "http") s with
  | None => None
  | Some s1 =>
      let (scheme, s2) := match strip_prefix (str "s") s1 with
                          | Some s2 => (str "https", s2)
                          | None => (str "http", s1)
                          end in
      match strip_prefix (str "://doi") s2 with
      | Some (c :: s3) =>
          if is_newline c then None
          else match strip_prefix (str "org/") s3 with
               | Some s4 =>
                   match span (fun c => negb (is_quote c)) s4 with
                   | (d :: ds, q :: _) =>
                       Some (scheme ++ str "://doi" ++ c :: str "org/" ++ d :: ds)
                   | _ => None
                   end
               | None => None
               end
      | _ => None
      end
  end.

Definition extract_arxiv_doi (arxiv_id : text) : M text :=
  resp ← http_get (plain (ARXIV_ABS_URL ++ arxiv_id));
  page ← attr resp_text resp;
  match re_search match_href page with
  | None => raise (ValueError (NoJournalDOI arxiv_id))
  | Some group1 => ret (last_piece (split (str "/") group1))
  end.

(* ===================================================================== *)
(** ** Main enrichment pipeline: one record *)
(* ===================================================================== *)

(** Truth value of [ent.get('doi')]: present and not empty. *)
Definition truthy (o : option text) : bool :=
  match o with
  | Some (_ :: _) => true
  | _ => false
  end.

Definition nonempty (s : text) : bool :=
  match s with
  | [] => false
  | _ :: _ => true
  end.

Definition is_None {A} (o : option A) : bool :=
  match o with
  | None => true
  | Some _ => false
  end.

(** [ent.get(k, '')] *)
Definition get_field (ent : Entry) (k : string) : text :=
  default [] (fields ent !! str k).

Definition nl : ascii := ascii_of_nat 10.

(** The [@misc] block of branch 1. *)
Definition misc_block (key author title urlf year today : text) : text :=
  str "@misc{" ++ key ++ "," :: nl ::
  str "  author       = {" ++ author ++ "}" :: "," :: nl ::
  str "  title        = {" ++ title ++ "}" :: "," :: nl ::
  str "  howpublished = {\url{" ++ urlf ++ "}" :: "}" :: "," :: nl ::
  str "  year         = {" ++ year ++ "}" :: "," :: nl ::
  str "  note         = {Accessed: " ++ today ++ "}" :: "," :: nl ::
  "}" :: [nl].

(** Branch 1: URL only. *)
Definition branch_url_only (key : text) (ent : Entry) (doi : option text)
    (urlf : text) : option text :=
  if negb (truthy doi) && nonempty urlf
     && negb (contains (str "doi.org") urlf)
     && negb (contains (str "arxiv.org/abs") urlf)
  then
    let author := get_field ent "author" in
    let title := strip (replace_char nl " " (get_field ent "title")) in
    let year := default (today_year E) (fields ent !! str "year") in
    let today := today_iso E in
    Some (clean_protected_case (misc_block key author title urlf year today))
  else None.

(** Branch 2: arXiv URL, resolved to a DOI. *)
Definition branch_arxiv (doi : option text) (urlf : text)
    (repl : option text) : M (option text) :=
  if is_None repl && negb (truthy doi) && contains (str "arxiv.org/abs") urlf
  then
    let aid := last_piece (split (str "/") (rstrip_char "/" urlf)) in
    try_except
      (arxiv_doi ← extract_arxiv_doi aid;
       used ← get_used;
       if bool_decide (arxiv_doi ∉ used) then
         fetched ← fetch_bibtex_from_doi arxiv_doi;
         used_add arxiv_doi;;
         ret (Some fetched)
       else ret repl)
      (fun _ => ret repl)
  else ret repl.

(** Branch 3: no DOI, metadata search. *)
Definition branch_metadata (key : text) (ent : Entry) (doi : option text)
    (repl : option text) : M (option text) :=
  if is_None repl && negb (truthy doi) then
    try_except
      (found ← search_doi_by_metadata (get_field ent "title")
                                      (get_field ent "author");
       used ← get_used;
       if bool_decide (found ∉ used) then
         fetched ← fetch_bibtex_from_doi found;
         used_add found;;
         ret (Some fetched)
       else
         print (SkipDuplicate found key);;
         ret repl)
      (fun e => print (MetadataFailed key e);; ret repl)
  else ret repl.

(** Branch 4: direct DOI. *)
Definition branch_doi (doi : option text) (repl : option text)
  : M (option text) :=
  match doi with
  | Some (c :: d) =>
      if is_None repl then
        let doi := c :: d in
        used ← get_used;
        if bool_decide (doi ∉ used) then
          fetched ← fetch_bibtex_from_doi doi;
          used_add doi;;
          ret (Some fetched)
        else ret repl
      else ret repl
  | _ => ret repl
  end.

(** Branch 5: the original formatting. *)
Definition branch_fallback (ent : Entry) (repl : option text) : text :=
  match repl with
  | Some r => r
  | None => clean_protected_case (writer_write E ent)
  end.

(** The body of the loop for a record that [bibtexparser] parsed. *)
Definition process_entry (key : text) (ent : Entry) : M text :=
  let doi := fields ent !! str "doi" in
  let urlf := strip (get_field ent "url") in
  let repl := branch_url_only key ent doi urlf in
  repl ← branch_arxiv doi urlf repl;
  repl ← branch_metadata key ent doi repl;
  repl ← branch_doi doi repl;
  ret (branch_fallback ent repl).

(** The two patterns of the raw-block branch, compiled with
    [re.IGNORECASE], at one position: a field name, white space, [=],
    white space, and a braced value without closing brace (group 1). *)
Definition match_field (name : string) (s : text) : option text :=
  match strip_prefix_ci (str name) s with
  | None => None
  | Some s1 =>
      match strip_prefix (str "=") (snd (span is_space s1)) with
      | Some s2 =>
          match strip_prefix (str "{") (snd (span is_space s2)) with
          | Some s3 =>
              match span (fun c => negb (ascii_eqb c "}")) s3 with
              | (v :: vs, _ :: _) => Some (v :: vs)
              | _ => None
              end
          | None => None
          end
      | None => None
      end
  end.

(** The DOI that the raw-block branch reads in the block. *)
Definition raw_block_doi (block : text) : option text :=
  let m1 := re_search (match_field "DOI") block in
  let doi := m1 in
  if negb (truthy doi) then
    match re_search (match_field "url") block with
    | Some group1 =>
        if contains (str "doi.org") group1
        then Some (last_piece (split (str "doi.org/") group1))
        else doi
    | None => doi
    end
  else doi.

(** The body of the loop for a record that [bibtexparser] did not parse. *)
Definition process_raw_block (block : text) : M text :=
  let doi := raw_block_doi block in
  repl ← match doi with
         | Some (c :: d) =>
             let doi := c :: d in
             used ← get_used;
             if bool_decide (doi ∉ used) then
               try_except
                 (fetched ← fetch_bibtex_from_doi doi;
                  used_add doi;;
                  ret (Some fetched))
                 (fun _ => ret None)
             else ret None
         | _ => ret None
         end;
  match repl with
  | Some r => ret r
  | None => ret (clean_protected_case block)
  end.

End Pipeline.

(* ===================================================================== *)
(** ** Boundary scan *)
(* ===================================================================== *)

(** A match of [entry_pattern]: its span, the group [key] and group 0. *)
Record Match := {
  m_start : nat;
  m_end : nat;
  m_key : text;
  m_block : text
}.

(** The entry-open marker (an [@], word characters, an opening brace) at
    one position; returns the text after the brace. *)
Definition match_marker (s : text) : option text :=
  match strip_prefix (str "@") s with
  | Some s1 =>
      match span is_word s1 with
      | (_ :: _, s2) => strip_prefix (str "{") s2
      | _ => None
      end
  | None => None
  end.

(** The lazy group [body] with its look-ahead: the body stops in front of
    a marker that starts a line, or at the end of the text. [prev] is the
    character before the position. Returns the body and the rest. *)
Fixpoint scan_body (prev : ascii) (s : text) : text * text :=
  match s with
  | [] => ([], [])
  | a :: s' =>
      if is_newline prev && negb (is_None (match_marker s)) then ([], s)
      else let (body, rest) := scan_body a s' in (a :: body, rest)
  end.

(** [entry_pattern] at one position: the marker, the key up to the first
    comma, the comma and the body. Returns the key and the text after the
    match. *)
Definition match_entry (s : text) : option (text * text) :=
  match match_marker s with
  | None => None
  | Some s2 =>
      match break_at (ascii_eqb ",") s2 with
      | Some (k :: key, comma :: s3) =>
          Some (k :: key, snd (scan_body comma s3))
      | _ => None
      end
  end.

(** [entry_pattern.finditer(raw_text)]: [pos] is the offset of [s] in the
    text and [skip] counts the characters of the current match still to be
    passed over. *)
Fixpoint finditer_aux (pos skip : nat) (s : text) : list Match :=
  match s with
  | [] => []
  | _ :: s' =>
      match skip with
      | S k => finditer_aux (S pos) k s'
      | O =>
          match match_entry s with
          | Some (key, rest) =>
              let n := length s - length rest in
              {| m_start := pos; m_end := pos + n; m_key := key;
                 m_block := take n s |}
              :: finditer_aux (S pos) (n - 1) s'
          | None => finditer_aux (S pos) 0 s'
          end
      end
  end.

Definition finditer (raw_text : text) : list Match :=
  finditer_aux 0 0 raw_text.

(* ===================================================================== *)
(** ** Span reassembler *)
(* ===================================================================== *)

Record Replacement := {
  r_start : nat;
  r_end : nat;
  r_text : text
}.

(** [sorted(replacements, key=lambda x: x['start'], reverse=True)]: a
    stable sort, so replacements of equal start keep their order. *)
Fixpoint insert_desc (r : Replacement) (l : list Replacement)
  : list Replacement :=
  match l with
  | [] => [r]
  | r' :: l' => if (r_start r' <=? r_start r)%nat then r :: l
                else r' :: insert_desc r l'
  end.

Definition sorted_desc (l : list Replacement) : list Replacement :=
  foldr insert_desc [] l.

(** [new_text[:r['start']] + r['text'] + new_text[r['end']:]] *)
Definition splice (new_text : text) (r : Replacement) : text :=
  take (r_start r) new_text ++ r_text r ++ drop (r_end r) new_text.

Definition apply_replacements (raw_text : text) (l : list Replacement)
  : text :=
  fold_left splice (sorted_desc l) raw_text.

(* ===================================================================== *)
(** ** Main enrichment pipeline: the file *)
(* ===================================================================== *)

(** The dictionary [structured]: a later entry replaces an earlier one of
    the same key. *)
Definition structured_of (entries : list Entry) : gmap text Entry :=
  fold_left (fun d e => <[ID e := e]> d) entries ∅.

Section File.

Variable E : Env.

(** The body of the loop over the matches. An entry of [bibtexparser] is
    a dictionary that holds at least its key, so [if ent] tests whether
    [structured.get(key)] found one. *)
Definition process_match (structured : gmap text Entry) (m : Match)
  : M Replacement :=
  let key := m_key m in
  repl ← match structured !! key with
         | Some ent => process_entry E key ent
         | None => process_raw_block E (m_block m)
         end;
  ret {| r_start := m_start m; r_end := m_end m; r_text := repl |}.

Fixpoint process_matches (structured : gmap text Entry) (ms : list Match)
  : M (list Replacement) :=
  match ms with
  | [] => ret []
  | m :: ms' =>
      r ← process_match structured m;
      rs ← process_matches structured ms';
      ret (r :: rs)
  end.

(** [process_bib_file]: [raw_text] is the content of the input file,
    [entries] what [bibtexparser] loaded from it; the value is the text
    written to the output file. *)
Definition process_bib_file (raw_text : text) (entries : list Entry)
  : M text :=
  let structured := structured_of entries in
  replacements ← process_matches structured (finditer raw_text);
  let new_text := apply_replacements raw_text replacements in
  print Finished;;
  ret new_text.

End File.

(* ===================================================================== *)
(** ** Vocabulary of the properties *)
(* ===================================================================== *)

(** A text cut at its record spans: [gap] is the text in front of a record
    and outside every span, [body] the text of the record's span, [new]
    the replacement text computed for the record. *)
Record Piece := {
  gap : text;
  body : text;
  new : text
}.

(** The input text: the pieces in order, then the text after the last
    record. *)
Fixpoint source (ps : list Piece) (tail : text) : text :=
  match ps with
  | [] => tail
  | p :: ps' => gap p ++ body p ++ source ps' tail
  end.

(** The text in which each span was replaced once and the rest kept. *)
Fixpoint target (ps : list Piece) (tail : text) : text :=
  match ps with
  | [] => tail
  | p :: ps' => gap p ++ new p ++ target ps' tail
  end.

(** The replacements of the pieces, [pos] being the offset of the first
    piece in the text. *)
Fixpoint replacements_at (pos : nat) (ps : list Piece) : list Replacement :=
  match ps with
  | [] => []
  | p :: ps' =>
      let s := pos + length (gap p) in
      let e := s + length (body p) in
      {| r_start := s; r_end := e; r_text := new p |}
      :: replacements_at e ps'
  end.

(** A matcher consumes text: a match is a non-empty prefix of the text it
    was tried on, and the text after the match is what remains. *)
Definition consumes (m : text -> option (text * text)) : Prop :=
  ∀ s out rest, m s = Some (out, rest) → ∃ a pre, s = a :: pre ++ rest.

(** Two adjacent opening braces occur in the text. *)
Definition has_double_open (s : text) : bool := contains (str "{{") s.

(** Strictly decreasing starts. *)
Definition desc (l : list Replacement) : Prop :=
  Sorted (fun r r' => r_start r' < r_start r) l.

(** The answer is a response of status 429. *)
Definition is_429 (o : Outcome) : bool :=
  match o with
  | Replied r => (status_code r =? 429)%nat
  | Failed => false
  end.

(** The state after a request was sent. *)
Definition sent (req : Request) (st : State) : State :=
  {| used_dois := used_dois st; clock := S (clock st);
     trace := EvGet req :: trace st |}.

(** The state after attempt number [attempt] was answered by 429: the
    request, the warning and the wait of [BACKOFF_FACTOR * 2^(attempt-1)]
    seconds. *)
Definition after_429 (req : Request) (attempt : nat) (st : State) : State :=
  let wait := BACKOFF_FACTOR * 2 ^ (attempt - 1) in
  {| used_dois := used_dois st; clock := S (clock st);
     trace := EvSleep wait :: EvPrint (WarnRetry (req_url req) wait)
              :: EvGet req :: trace st |}.

(** The state after the attempts [attempt], ..., [attempt + k - 1] were
    all answered by 429. *)
Fixpoint after_429s (req : Request) (attempt k : nat) (st : State) : State :=
  match k with
  | O => st
  | S k' => after_429s req (S attempt) k' (after_429 req attempt st)
  end.

(** What an answer other than 429 makes [http_get] do. *)
Definition final_result (o : Outcome) : Res (option Response) :=
  match o with
  | Failed => Raise ConnectionError
  | Replied r => if is_error_status (status_code r) then Raise (HTTPError r)
                 else Ok (Some r)
  end.




(** The event is not a call of [fetch_bibtex_from_doi]. *)
Definition no_fetch (ev : Event) : Prop :=
  match ev with
  | EvFetch _ _ => False
  | _ => True
  end.

(** From [st] to [st'] nothing touched [used_dois] and no call of
    [fetch_bibtex_from_doi] started. *)
Definition quiet_step (st st' : State) : Prop :=
  used_dois st' = used_dois st
  ∧ ∃ new, trace st' = new ++ trace st ∧ Forall no_fetch new.

Definition quiet {A} (m : M A) : Prop := ∀ st, quiet_step st (m st).2.

(** The events of [st'] that are not yet in [st]. *)
Definition new_events (st st' : State) : list Event :=
  take (length (trace st') - length (trace st)) (trace st').

(** *** Sample inputs *)

Definition ok_response (body : text) : Response :=
  {| status_code := 200; resp_text := body; resp_json := None |}.

Definition status_response (status : nat) : Response :=
  {| status_code := status; resp_text := []; resp_json := None |}.

(** A stand-in for the writer of [bibtexparser]. *)
Definition sample_writer (e : Entry) : text :=
  str "@entry{" ++ ID e ++ str "}".

Definition sample_env (server : nat -> Request -> Outcome) : Env :=
  {| server := server; today_year := str "2025";
     today_iso := str "2025-06-01"; writer_write := sample_writer |}.

(** Servers that give the same answer to every request. *)
Definition always (r : Response) : nat -> Request -> Outcome :=
  fun _ _ => Replied r.

Definition entry_of (key : string) (fs : list (string * string)) : Entry :=
  {| ID := str key;
     fields := list_to_map (map (fun kv => (str kv.1, str kv.2)) fs) |}.

(** An abstract page of arXiv with a link to the DOI resolver, and the
    servers that answer with it at the abstract URL and with a BibTeX
    record elsewhere. *)
Definition arxiv_page : text :=
  str "<a href=" ++ [ascii_of_nat 34] ++ str "https://doi.org/10.2/y"
  ++ [ascii_of_nat 34] ++ str ">".

Definition arxiv_server : nat -> Request -> Outcome :=
  fun _ req =>
    if text_eqb (req_url req) (str "https://arxiv.org/abs/1234.5678")
    then Replied (ok_response arxiv_page)
    else Replied (ok_response (str "@article{fetched}")).

Definition arxiv_entry : Entry :=
  entry_of "k" [("url", "https://arxiv.org/abs/1234.5678")]%string.

(** A file of one record with a DOI field, as [bibtexparser] loads it. *)
Definition one_doi_text : text :=
  str "@article{k1, title={{A}new result}, doi={10.1/x}}".

Definition one_doi_entries : list Entry :=
  [entry_of "k1" [("title", "{A}new result"); ("doi", "10.1/x")]%string].

Definition fetched_k1 : text :=
  str "@article{k1, title={Anew result}, doi={10.1/x}}" ++ [nl].

(** A file of two records with the same DOI field and a link field. *)
Definition same_doi_text : text :=
  str "@article{k1, doi={10.3/z}, url={https://example.com/p}}" ++ [nl]
  ++ str "@article{k2, doi={10.3/z}, url={https://example.com/p}}" ++ [nl].

Definition same_doi_entries : list Entry :=
  [entry_of "k1" [("doi", "10.3/z"); ("url", "https://example.com/p")]%string;
   entry_of "k2" [("doi", "10.3/z"); ("url", "https://example.com/p")]%string].

(** A file of two records with the same key and a link only. *)
Definition same_key_text : text :=
  str "@misc{k, url={https://example.com/a}}" ++ [nl]
  ++ str "@misc{k, url={https://example.com/a}}" ++ [nl].

Definition same_key_entries : list Entry :=
  [entry_of "k" [("url", "https://example.com/a")]%string;
   entry_of "k" [("url", "https://example.com/a")]%string].

(** A metadata search answered by one candidate. *)
Definition one_candidate : Response :=
  {| status_code := 200; resp_text := [];
     resp_json := Some [{| item_title := Some [str "A New Result!"];
                           item_DOI := Some (str "10.3/z") |}] |}.

Definition titled_entry : Entry :=
  entry_of "k3" [("title", "{A} new result")]%string.








(** A text of two records with a comment in front, and replacements for
    them. *)
Definition sample_pieces : list Piece :=
  [ {| gap := str "% refs" ++ [nl]; body := str "@a{k1, x}" ++ [nl];
       new := str "@article{one}" |};
    {| gap := []; body := str "@b{k2, y}"; new := str "@book{two}" |} ].

(** Servers that answer 429 to the first two requests of a run. *)
Definition busy_twice : nat -> Request -> Outcome :=
  fun n _ => if (n <? 2)%nat then Replied (status_response 429)
             else Replied (ok_response (str "done")).

(** The matches lie in the text [s], whose offset is [pos], one after the
    other: each is a non-empty stretch of the text, at the offsets it
    records, after the end of the one before. *)
Fixpoint covers (pos : nat) (s : text) (ms : list Match) : Prop :=
  match ms with
  | [] => True
  | m :: ms' =>
      ∃ gap rest,
        s = gap ++ m_block m ++ rest
        ∧ m_block m ≠ []
        ∧ m_start m = pos + length gap
        ∧ m_end m = m_start m + length (m_block m)
        ∧ covers (m_end m) rest ms'
  end.


(** *** Vocabulary of the further properties *)

Definition is_brace (c : ascii) : bool := ascii_eqb "{" c || ascii_eqb "}" c.

(** The text without its braces. *)
Definition without_braces (s : text) : text :=
  filter (fun c => negb (is_brace c)) s.

(** The replacement of every match is the match less some of its braces,
    at least two of them. *)
Definition deletes_braces (m : text -> option (text * text)) : Prop :=
  ∀ s out rest, m s = Some (out, rest) →
    ∃ pre, s = pre ++ rest
           ∧ without_braces out = without_braces pre
           ∧ length out + 2 ≤ length pre.

(** The computation returns, whatever the state it starts in. *)
Definition never_raises {A} (m : M A) : Prop :=
  ∀ st, ∃ a, (m st).1 = Ok a.

(** What the computation returns, when it returns, satisfies [P]. *)
Definition yields {A} (P : A → Prop) (m : M A) : Prop :=
  ∀ st a st', m st = (Ok a, st') → P a.



(** The number of requests among the events. *)
Fixpoint sent_requests (tr : list Event) : nat :=
  match tr with
  | [] => 0
  | EvGet _ :: tr' => S (sent_requests tr')
  | _ :: tr' => sent_requests tr'
  end.

(** The seconds slept among the events. *)
Fixpoint slept (tr : list Event) : nat :=
  match tr with
  | [] => 0
  | EvSleep secs :: tr' => secs + slept tr'
  | _ :: tr' => slept tr'
  end.

(** From [st] to [st'] at most [n] requests were sent and at most [s]
    seconds slept. *)
Definition cost_step (n s : nat) (st st' : State) : Prop :=
  sent_requests (trace st') ≤ sent_requests (trace st) + n
  ∧ slept (trace st') ≤ slept (trace st) + s.

Definition costs {A} (n s : nat) (m : M A) : Prop :=
  ∀ st, cost_step n s st (m st).2.

(** The waits of the attempts, added up. *)
Definition total_backoff (attempts : list nat) : nat :=
  list_sum (map (fun attempt => BACKOFF_FACTOR * 2 ^ (attempt - 1)) attempts).

(** From [st] to [st'] at most one DOI was added to [used_dois], and it
    was not there before. *)
Definition adds_at_most_one (st st' : State) : Prop :=
  used_dois st' = used_dois st
  ∨ ∃ d, (d ∉ used_dois st) ∧ used_dois st' = {[d]} ∪ used_dois st.

(** What a branch leaves: [used_dois] as it was, or a replacement and one
    more DOI in [used_dois]. *)
Definition branch_step (st : State) (out : Res (option text) * State)
  : Prop :=
  used_dois out.2 = used_dois st
  ∨ ∃ d t, out.1 = Ok (Some t) ∧ (d ∉ used_dois st)
           ∧ used_dois out.2 = {[d]} ∪ used_dois st.

(** The request of the CrossRef fallback of [fetch_bibtex_from_doi]. *)
Definition transform_request (doi : text) : Request :=
  {| req_url := CROSSREF_API_WORKS ++ "/" :: doi
                ++ str "/transform/application/x-bibtex";
     req_params := [];
     req_headers := [(str "Accept", str "application/x-bibtex")] |}.

(** The state when the first request of [fetch_bibtex_from_doi] for [doi]
    has been sent. *)
Definition first_sent (doi : text) (st : State) : State :=
  {| used_dois := used_dois st; clock := S (clock st);
     trace := EvGet (plain (DOI2BIB_URL ++ doi))
              :: EvFetch doi (used_dois st) :: trace st |}.

(** The state when the miss of doi2bib.org has been printed. *)
Definition miss_printed (doi : text) (st : State) : State :=
  {| used_dois := used_dois st; clock := S (clock st);
     trace := EvPrint (Doi2bibMiss doi)
              :: EvGet (plain (DOI2BIB_URL ++ doi))
              :: EvFetch doi (used_dois st) :: trace st |}.

(** Servers that answer 404 to the first request of a run and a BibTeX
    record to the others. *)
Definition miss_first : nat -> Request -> Outcome :=
  fun n _ => if (n =? 0)%nat then Replied (status_response 404)
             else Replied (ok_response (str "@book{b, title={{T}he book}}")).

(** The state in which [doi] has been added to [used_dois]. *)
Definition recorded (doi : text) (st : State) : State :=
  {| used_dois := {[doi]} ∪ used_dois st; clock := clock st;
     trace := trace st |}.

(** Servers that answer a metadata search with one candidate and any
    other request with a BibTeX record. *)
Definition search_server : nat -> Request -> Outcome :=
  fun _ req =>
    if text_eqb (req_url req) CROSSREF_API_WORKS
    then Replied one_candidate
    else Replied (ok_response (str "@article{z, title={{A} new result}}")).

(** Servers that make a record without DOI as expensive as it can be: the
    answer to each request of the run, by its rank. Every call of
    [http_get] is answered 429 twice; the arXiv page gives a DOI, doi2bib
    misses it, CrossRef stays busy; the metadata search finds a DOI,
    doi2bib misses it again. *)
Definition worst_server : nat -> Request -> Outcome :=
  fun n _ =>
    if (n =? 2)%nat then Replied (ok_response arxiv_page)
    else if (n =? 5)%nat || (n =? 14)%nat then Replied (status_response 404)
    else if (n =? 11)%nat then Replied one_candidate
    else Replied (status_response 429).

Definition worst_entry : Entry :=
  entry_of "w" [("url", "https://arxiv.org/abs/1234.5678");
                ("title", "A new result")]%string.

(** The results of [http_get] that come before the retries are exhausted:
    a value, or the error of a response other than 429. *)
Definition light {A} (res : Res A) : Prop :=
  match res with
  | Ok _ => True
  | Raise (HTTPError r) => status_code r ≠ 429
  | Raise _ => False
  end.

Definition is_Ok {A} (res : Res A) : Prop :=
  match res with
  | Ok _ => True
  | Raise _ => False
  end.

(** As [costs], and at most [l] seconds slept when the result is
    [good]. *)
Definition costs_when {A} (good : Res A → Prop) (n s l : nat) (m : M A)
  : Prop :=
  ∀ st, cost_step n s st (m st).2
        ∧ (good (m st).1 → slept (trace (m st).2) ≤ slept (trace st) + l).

(** A predicate on the text from a position on holds at some position. *)
Fixpoint occurs (p : text -> bool) (s : text) : bool :=
  p s || match s with
         | [] => false
         | _ :: s' => occurs p s'
         end.

(** The text starts with a closing brace. *)
Definition starts_close (s : text) : bool :=
  match s with
  | e :: _ => ascii_eqb "}" e
  | [] => false
  end.

(** The second pattern of [clean_protected_case] matches at the front of
    the text: a letter in one pair of braces. *)
Definition letter_group_at (s : text) : bool :=
  match letter_match s with
  | Some _ => true
  | None => false
  end.

(** A letter in two pairs of braces stands at the front of the text: an
    opening brace, what the second pattern matches, a closing brace. *)
Definition nested_letter_at (s : text) : bool :=
  match s with
  | a :: s1 =>
      ascii_eqb "{" a
      && match letter_match s1 with
         | Some (_, rest) => starts_close rest
         | None => false
         end
  | [] => false
  end.

(** A letter in one pair of braces occurs in the text. *)
Definition has_letter_group (s : text) : bool := occurs letter_group_at s.

(** A letter in two pairs of braces occurs in the text. *)
Definition has_nested_letter (s : text) : bool := occurs nested_letter_at s.

(** From [st] to [st'] nothing touched [used_dois], no call of
    [fetch_bibtex_from_doi] started, and the clock counted the requests
    that were sent. *)
Definition calm_step (st st' : State) : Prop :=
  used_dois st' = used_dois st
  ∧ ∃ new, trace st' = new ++ trace st
           ∧ Forall no_fetch new
           ∧ clock st' = clock st + sent_requests new.

Definition calm {A} (m : M A) : Prop := ∀ st, calm_step st (m st).2.

(** The state in which a call of [fetch_bibtex_from_doi] starts in a run
    from [st]: [earlier] are the events of the run before the call and
    [U] is the content of [used_dois] at the call. *)
Definition call_state (st : State) (earlier : list Event) (U : gset text)
  : State :=
  {| used_dois := U; clock := clock st + sent_requests earlier;
     trace := earlier ++ trace st |}.

(** The call of [fetch_bibtex_from_doi] for [d] that a run from [st] made
    after the events [earlier], with [U] in [used_dois], returned a text:
    it did not raise. *)
Definition returned (E : Env) (st : State) (earlier : list Event) (d : text)
    (U : gset text) : Prop :=
  is_Ok (fetch_bibtex_from_doi E d (call_state st earlier U)).1.

(** The events [later], which follow the call of [fetch_bibtex_from_doi]
    for [d] in a run from [st], start with the events of that call, made
    in its state. *)
Definition call_events (E : Env) (st : State) (later earlier : list Event)
    (d : text) (U : gset text) : Prop :=
  ∃ own after,
    later = after ++ own
    ∧ trace (fetch_bibtex_from_doi E d (call_state st earlier U)).2
      = own ++ EvFetch d U :: earlier ++ trace st.

(** From [st] to [st'] the fetched DOIs were recorded:
    - [used_dois] only grew, and the clock counted the requests;
    - each call of [fetch_bibtex_from_doi] was for a DOI that was not in
      [used_dois] at the time of the call;
    - each call was made in the state described by [call_state];
    - a call that returned left its DOI in [used_dois]: the DOI is in the
      set that each later call saw, and in the set of [st'];
    - each DOI added to [used_dois] was fetched by a call that
      returned. *)
Definition recording_step (E : Env) (st st' : State) : Prop :=
  used_dois st ⊆ used_dois st'
  ∧ ∃ new,
      trace st' = new ++ trace st
      ∧ clock st' = clock st + sent_requests new
      ∧ (∀ d U, EvFetch d U ∈ new →
                (d ∉ U) ∧ used_dois st ⊆ U ∧ U ⊆ used_dois st')
      ∧ (∀ later d U earlier,
           new = later ++ EvFetch d U :: earlier →
           call_events E st later earlier d U
           ∧ (returned E st earlier d U →
              d ∈ used_dois st'
              ∧ ∀ d' U', EvFetch d' U' ∈ later → d ∈ U'))
      ∧ (∀ d, d ∈ used_dois st' →
              d ∈ used_dois st
              ∨ ∃ later U earlier,
                  new = later ++ EvFetch d U :: earlier
                  ∧ returned E st earlier d U).

Definition recording {A} (E : Env) (m : M A) : Prop :=
  ∀ st, recording_step E st (m st).2.




(* ===================================================================== *)
(** * Properties *)
(* ===================================================================== *)

(** ** Span reassembler *)

Section Reassembly.

Implicit Types (r : Replacement) (l : list Replacement) (ps : list Piece).

Lemma insert_desc_perm r l : insert_desc r l ≡ₚ r :: l.
Proof.
  induction l as [|r' l IH]; simpl; [done|].
  case_match; [done|]. rewrite IH. apply Permutation_swap.
Qed.

Lemma sorted_desc_perm l : sorted_desc l ≡ₚ l.
Proof.
  induction l as [|r l IH]; simpl; [done|].
  by rewrite insert_desc_perm, IH.
Qed.

Lemma insert_desc_sorted r l :
  desc l → (∀ r', r' ∈ l → r_start r' ≠ r_start r) → desc (insert_desc r l).
Proof.
  unfold desc. induction 1 as [|r' l Hl IH Hhd]; intros Hne; simpl.
  { repeat constructor. }
  destruct (Nat.leb_spec (r_start r') (r_start r)) as [Hle|Hlt].
  - assert (r_start r' ≠ r_start r) by (apply Hne; left).
    constructor; [by constructor|]. constructor. lia.
  - constructor.
    + apply IH. intros ? ?. apply Hne. by right.
    + destruct Hhd as [|r'' l' Hlt']; simpl.
      { by constructor. }
      case_match; by constructor.
Qed.

Lemma sorted_desc_sorted l :
  NoDup (r_start <$> l) → desc (sorted_desc l).
Proof.
  induction l as [|r l IH]; simpl; intros Hnd.
  { constructor. }
  apply NoDup_cons in Hnd as [Hr Hnd].
  apply insert_desc_sorted; [by apply IH|].
  intros r' Hin Heq. rewrite sorted_desc_perm in Hin. apply Hr.
  rewrite <- Heq. by apply list_elem_of_fmap_2.
Qed.

Lemma desc_head_max r l r' :
  desc (r :: l) → r' ∈ l → r_start r' < r_start r.
Proof.
  intros Hs Hin. apply Sorted_StronglySorted in Hs.
  - apply StronglySorted_inv in Hs as [_ Hall].
    rewrite Forall_forall in Hall. by apply Hall.
  - intros x y z ??. lia.
Qed.

(** A list has one arrangement with strictly decreasing starts. *)
Lemma desc_unique l l' : desc l → desc l' → l ≡ₚ l' → l = l'.
Proof.
  revert l'. induction l as [|r l IH]; intros l' Hl Hl' Hp.
  { by apply Permutation_nil_l in Hp. }
  destruct l' as [|r' l'].
  { by apply Permutation_nil_r in Hp. }
  assert (r = r') as <-.
  { assert (r ∈ r' :: l') as Hin by (rewrite <- Hp; left).
    assert (r' ∈ r :: l) as Hin' by (rewrite Hp; left).
    apply elem_of_cons in Hin as [?|Hin]; [done|].
    apply elem_of_cons in Hin' as [?|Hin']; [done|].
    pose proof (desc_head_max _ _ _ Hl Hin').
    pose proof (desc_head_max _ _ _ Hl' Hin). lia. }
  f_equal. apply IH.
  - by inversion Hl.
  - by inversion Hl'.
  - by apply Permutation_cons_inv in Hp.
Qed.

Lemma replacements_at_starts pos ps r :
  r ∈ replacements_at pos ps → pos ≤ r_start r.
Proof.
  revert pos. induction ps as [|p ps IH]; simpl; intros pos Hin.
  { by apply elem_of_nil in Hin. }
  apply elem_of_cons in Hin as [->|Hin]; simpl; [lia|].
  apply IH in Hin. lia.
Qed.

Lemma replacements_at_desc pos ps :
  Forall (fun p => body p ≠ []) ps → desc (rev (replacements_at pos ps)).
Proof.
  revert pos. induction ps as [|p ps IH]; simpl; intros pos Hne.
  { constructor. }
  apply Forall_cons in Hne as [Hp Hne].
  set (r := {| r_start := _ |}).
  assert (desc (rev (replacements_at (pos + length (gap p) + length (body p)) ps) ++ [r])) as H;
    [|exact H].
  specialize (IH (pos + length (gap p) + length (body p)) Hne).
  assert (∀ r', r' ∈ rev (replacements_at (pos + length (gap p) + length (body p)) ps)
                → r_start r < r_start r') as Hlt.
  { intros r' Hin. rewrite <- Permutation_rev in Hin.
    apply replacements_at_starts in Hin. subst r; simpl.
    destruct (body p); [done|]. simpl in *. lia. }
  revert IH Hlt. generalize (rev (replacements_at (pos + length (gap p) + length (body p)) ps)).
  intros l Hl Hlt. induction Hl as [|r' l Hl IHl Hhd]; simpl.
  { repeat constructor. }
  constructor.
  - apply IHl. intros ? ?. apply Hlt. by right.
  - destruct Hhd; simpl; constructor; [|done]. apply Hlt. left.
Qed.

Lemma replacements_at_NoDup pos ps :
  Forall (fun p => body p ≠ []) ps →
  NoDup (r_start <$> replacements_at pos ps).
Proof.
  revert pos. induction ps as [|p ps IH]; simpl; intros pos Hne.
  { constructor. }
  apply Forall_cons in Hne as [Hp Hne].
  apply NoDup_cons. split; [|by apply IH].
  intros Hin. apply list_elem_of_fmap in Hin as (r & Heq & Hin).
  apply replacements_at_starts in Hin.
  destruct (body p); [done|]. simpl in *. lia.
Qed.

Lemma splice_pieces ps tail pre pos :
  length pre = pos →
  foldr (fun r t => splice t r) (pre ++ source ps tail) (replacements_at pos ps)
  = pre ++ target ps tail.
Proof.
  revert pre pos. induction ps as [|p ps IH]; simpl; intros pre pos Hlen; [done|].
  replace (pre ++ gap p ++ body p ++ source ps tail)
    with ((pre ++ gap p ++ body p) ++ source ps tail)
    by (by rewrite <- !app_assoc).
  rewrite IH by (rewrite !length_app; lia).
  unfold splice; simpl.
  rewrite drop_app_length' by (rewrite !length_app; lia).
  replace ((pre ++ gap p ++ body p) ++ target ps tail)
    with ((pre ++ gap p) ++ body p ++ target ps tail)
    by (by rewrite <- !app_assoc).
  rewrite take_app_length' by (rewrite length_app; lia).
  by rewrite <- app_assoc.
Qed.

Lemma fold_left_rev l (t : text) :
  fold_left splice (rev l) t = foldr (fun r t => splice t r) t l.
Proof.
  induction l as [|r l IH]; simpl; [done|].
  by rewrite fold_left_app, IH.
Qed.

(** Sorted by start descending, the replacements of the pieces come in
    the reverse order of the pieces, in whatever order they were given. *)
Lemma sorted_desc_pieces ps l :
  Forall (fun p => body p ≠ []) ps →
  l ≡ₚ replacements_at 0 ps →
  sorted_desc l = rev (replacements_at 0 ps).
Proof.
  intros Hne Hp. apply desc_unique.
  - apply sorted_desc_sorted. rewrite Hp. by apply replacements_at_NoDup.
  - by apply replacements_at_desc.
  - by rewrite sorted_desc_perm, Hp, <- Permutation_rev.
Qed.

End Reassembly.

(** C1. Reassembly correctness. Take any input text, cut as the text in
    front of each record span, the span itself (not empty, since a span
    holds at least the entry-open marker) and the text after the last
    span; so the spans are inside the text and do not overlap. Take its
    replacements, one per span, collected in any order. Applying them
    sorted by start offset descending yields the text in which every
    character outside the spans is kept verbatim, in place, and each span
    is replaced exactly once by its replacement text. *)
Theorem reassembly_correct (ps : list Piece) (tail : text)
    (replacements : list Replacement) :
  Forall (fun p => body p ≠ []) ps →
  replacements ≡ₚ replacements_at 0 ps →
  apply_replacements (source ps tail) replacements = target ps tail.
Proof.
  intros Hne Hp. unfold apply_replacements.
  rewrite (sorted_desc_pieces ps) by done.
  rewrite fold_left_rev.
  apply (splice_pieces ps tail [] 0 eq_refl).
Qed.

(** ** Text operations *)

Section Scanning.

Implicit Types (s p u v : text) (a b c : ascii).

Lemma ascii_eqb_true a b : ascii_eqb a b = true ↔ a = b.
Proof. apply Ascii.eqb_eq. Qed.

Lemma ascii_eqb_false a b : ascii_eqb a b = false ↔ a ≠ b.
Proof. apply Ascii.eqb_neq. Qed.

Lemma strip_prefix_Some p s r : strip_prefix p s = Some r ↔ s = p ++ r.
Proof.
  revert s. induction p as [|a p IH]; intros s; simpl.
  { split; [by intros [= ->]|by intros ->]. }
  destruct s as [|b s]; [done|].
  destruct (ascii_eqb a b) eqn:Hab.
  - apply ascii_eqb_true in Hab as ->. rewrite IH.
    split; [by intros ->|by intros [= ->]].
  - apply ascii_eqb_false in Hab. split; [done|]. by intros [= -> _].
Qed.

Lemma strip_prefix_app p s : strip_prefix p (p ++ s) = Some s.
Proof. by apply strip_prefix_Some. Qed.

Lemma span_app f s u v : span f s = (u, v) → s = u ++ v.
Proof.
  revert u v. induction s as [|a s IH]; simpl; intros u v.
  { by intros [= <- <-]. }
  destruct (f a); [|by intros [= <- <-]].
  destruct (span f s) as [u' v']. intros [= <- <-].
  by rewrite (IH u' v').
Qed.

Lemma break_at_app f s u v : break_at f s = Some (u, v) → s = u ++ v.
Proof.
  revert u v. induction s as [|a s IH]; simpl; intros u v; [done|].
  destruct (f a); [by intros [= <- <-]|].
  destruct (break_at f s) as [[u' v']|]; [|done].
  intros [= <- <-]. by rewrite (IH u' v').
Qed.

Lemma break_at_head f s u v :
  break_at f s = Some (u, v) → ∃ q r, v = q :: r ∧ f q = true.
Proof.
  revert u. induction s as [|a s IH]; simpl; intros u; [done|].
  destruct (f a) eqn:Ha; [intros [= <- <-]; eauto|].
  destruct (break_at f s) as [[u' v']|]; [|done].
  intros [= <- <-]. eauto.
Qed.

Lemma re_sub_aux_drop m k s : re_sub_aux m k s = re_sub m (drop k s).
Proof.
  revert k. induction s as [|a s IH]; intros [|k]; simpl; try done.
  all: try apply IH.
Qed.

Lemma re_sub_nil m : re_sub m [] = [].
Proof. done. Qed.

Lemma re_sub_skip m a s :
  m (a :: s) = None → re_sub m (a :: s) = a :: re_sub m s.
Proof. unfold re_sub; simpl. by intros ->. Qed.

Lemma re_sub_match m s out rest :
  consumes m → m s = Some (out, rest) → re_sub m s = out ++ re_sub m rest.
Proof.
  intros Hm Hs. destruct (Hm _ _ _ Hs) as (a & pre & ->).
  unfold re_sub at 1; simpl. rewrite Hs, re_sub_aux_drop.
  do 2 f_equal. rewrite length_app.
  replace (length pre + length rest - length rest) with (length pre) by lia.
  by rewrite drop_app_length.
Qed.

End Scanning.

(** ** BibTeX text cleanup *)

Section Cleanup.

Implicit Types (s t u : text) (a b c : ascii).

Lemma is_letter_not_open c : is_letter c = true → ascii_eqb "{" c = false.
Proof. destruct (ascii_eqb "{" c) eqn:H; [|done]. by apply ascii_eqb_true in H as <-. Qed.

Lemma is_letter_not_close c : is_letter c = true → ascii_eqb "}" c = false.
Proof. destruct (ascii_eqb "}" c) eqn:H; [|done]. by apply ascii_eqb_true in H as <-. Qed.

Lemma letter_match_Some s out rest :
  letter_match s = Some (out, rest) ↔
  ∃ c, is_letter c = true ∧ s = "{" :: c :: "}" :: rest ∧ out = [c].
Proof.
  unfold letter_match. split.
  - destruct (strip_prefix (str "{") s) as [[|c s1]|] eqn:H1; try done.
    destruct (is_letter c) eqn:Hc; [|done].
    destruct (strip_prefix (str "}") s1) as [r|] eqn:H2; [|done].
    intros [= <- <-]. apply strip_prefix_Some in H1, H2. subst. by exists c.
  - intros (c & Hc & -> & ->). simpl.
    by rewrite Hc.
Qed.

Lemma letter_match_consumes : consumes letter_match.
Proof.
  intros s out rest (c & _ & -> & _)%letter_match_Some.
  by exists "{", [c; "}"].
Qed.

Lemma letter_match_head a s :
  ascii_eqb "{" a = false → letter_match (a :: s) = None.
Proof. unfold letter_match; simpl. by intros ->. Qed.

(** A match of the title pattern starts with [title], white space, [=],
    white space and two opening braces. *)
Lemma match_title_shape s g1 g2 g3 rest :
  match_title s = Some (g1, g2, g3, rest) →
  s = g1 ++ "{" :: "{" :: g2 :: "}" :: g3 ++ "}" :: rest ∧ g1 ≠ [].
Proof.
  unfold match_title.
  destruct (strip_prefix (str "title") s) as [s1|] eqn:H1; [|done].
  destruct (span is_space s1) as [ws1 s2] eqn:H2.
  destruct (strip_prefix (str "=") s2) as [s3|] eqn:H3; [|done].
  destruct (span is_space s3) as [ws2 s4] eqn:H4.
  destruct (strip_prefix (str "{{") s4) as [[|c s5]|] eqn:H5; try done.
  destruct (is_letter c); [|done].
  destruct (strip_prefix (str "}") s5) as [s6|] eqn:H6; [|done].
  destruct (break_at (ascii_eqb "}") s6) as [[g [|q r]]|] eqn:H7; try done.
  intros [= <- <- <- <-].
  apply strip_prefix_Some in H1, H3, H5, H6.
  apply span_app in H2, H4.
  assert (q = "}") as ->.
  { apply break_at_head in H7 as (q' & r' & [= -> ->] & Hq).
    by apply ascii_eqb_true in Hq. }
  apply break_at_app in H7.
  split; [|done]. subst. simpl. by rewrite <- !app_assoc.
Qed.

Lemma merge_match_consumes : consumes merge_match.
Proof.
  intros s out rest. unfold merge_match.
  destruct (match_title s) as [[[[g1 g2] g3] r]|] eqn:H; [|done].
  intros [= <- <-]. apply match_title_shape in H as [-> Hg1].
  destruct g1 as [|a g1]; [done|].
  exists a, (g1 ++ "{" :: "{" :: g2 :: "}" :: g3 ++ ["}"]).
  simpl. f_equal. rewrite <- app_assoc. simpl. do 5 f_equal.
  by rewrite <- app_assoc.
Qed.

Lemma contains_cons sub a s :
  contains sub s = true → contains sub (a :: s) = true.
Proof. intros H. simpl. by destruct (strip_prefix sub (a :: s)). Qed.

Lemma contains_app sub pre s : contains sub (pre ++ sub ++ s) = true.
Proof.
  induction pre as [|a pre IH]; [|by apply contains_cons].
  simpl. destruct (sub ++ s) eqn:E; simpl; rewrite <- E, strip_prefix_app; done.
Qed.

Lemma merge_match_double s out rest :
  merge_match s = Some (out, rest) → has_double_open s = true.
Proof.
  unfold merge_match.
  destruct (match_title s) as [[[[g1 g2] g3] r]|] eqn:H; [|done].
  intros _. apply match_title_shape in H as [-> _].
  apply (contains_app (str "{{") g1 (g2 :: "}" :: g3 ++ "}" :: r)).
Qed.

Lemma has_double_open_cons a s :
  has_double_open (a :: s)
  = ascii_eqb "{" a && match s with
                       | b :: _ => ascii_eqb "{" b
                       | [] => false
                       end
    || has_double_open s.
Proof.
  unfold has_double_open. simpl.
  destruct (ascii_eqb "{" a); [|done].
  destruct s as [|b s]; [done|].
  by destruct (ascii_eqb "{" b).
Qed.

(** The first pass leaves a text without two adjacent opening braces
    as it is. *)
Lemma merge_id s : has_double_open s = false → re_sub merge_match s = s.
Proof.
  induction s as [|a s IH]; [done|]. intros Hs.
  rewrite re_sub_skip.
  - f_equal. apply IH.
    rewrite has_double_open_cons in Hs. by apply orb_false_elim in Hs as [_ ?].
  - destruct (merge_match (a :: s)) as [[out rest]|] eqn:H; [|done].
    apply merge_match_double in H. congruence.
Qed.

(** How the second pass starts. *)
Lemma letter_sub_unfold s :
  re_sub letter_match s
  = match s with
    | [] => []
    | a :: s' =>
        match letter_match s with
        | Some (out, rest) => out ++ re_sub letter_match rest
        | None => a :: re_sub letter_match s'
        end
    end.
Proof.
  destruct s as [|a s]; [done|].
  destruct (letter_match (a :: s)) as [[out rest]|] eqn:H.
  - by apply re_sub_match; [apply letter_match_consumes|].
  - by apply re_sub_skip.
Qed.

(** The second pass does not put a closing brace in front. *)
Lemma letter_sub_head s :
  head s ≠ Some "}" → head (re_sub letter_match s) ≠ Some "}".
Proof.
  rewrite letter_sub_unfold. destruct s as [|a s]; [done|].
  destruct (letter_match (a :: s)) as [[out rest]|] eqn:H; [|done].
  apply letter_match_Some in H as (c & Hc & _ & ->). intros _. simpl.
  apply is_letter_not_close in Hc. apply ascii_eqb_false in Hc. congruence.
Qed.

Lemma has_double_open_tail a s :
  has_double_open (a :: s) = false → has_double_open s = false.
Proof.
  rewrite has_double_open_cons. intros H. by apply orb_false_elim in H as [_ ?].
Qed.

(** Without two adjacent opening braces, the second pass starts with the
    first character it reads unless that is an opening brace. *)
Lemma letter_sub_keep a s :
  ascii_eqb "{" a = false →
  re_sub letter_match (a :: s) = a :: re_sub letter_match s.
Proof. intros Ha. by apply re_sub_skip, letter_match_head. Qed.

(** The second pass creates no pair of adjacent opening braces. *)
Lemma letter_sub_no_double s :
  has_double_open s = false →
  has_double_open (re_sub letter_match s) = false.
Proof.
  assert (∀ n s, length s ≤ n → has_double_open s = false →
                 has_double_open (re_sub letter_match s) = false) as H;
    [|by eauto].
  clear s. induction n as [|n IH]; intros s Hlen Hs.
  { by destruct s; [|simpl in Hlen; lia]. }
  rewrite letter_sub_unfold. destruct s as [|a s]; [done|].
  destruct (letter_match (a :: s)) as [[out rest]|] eqn:Hm.
  - apply letter_match_Some in Hm as (c & Hc & [= -> ->] & ->). simpl.
    rewrite has_double_open_cons, (is_letter_not_open c Hc). simpl.
    apply IH; [simpl in Hlen; lia|].
    by do 3 apply has_double_open_tail in Hs.
  - rewrite has_double_open_cons.
    rewrite (IH s) by (by simpl in Hlen; lia || eapply has_double_open_tail).
    rewrite orb_false_r.
    destruct (ascii_eqb "{" a) eqn:Ha; [|done]. simpl.
    rewrite has_double_open_cons, Ha in Hs. simpl in Hs.
    apply orb_false_elim in Hs as [Hb _].
    destruct s as [|b s]; [done|]. by rewrite letter_sub_keep.
Qed.

(** On a text without two adjacent opening braces, the second pass is
    idempotent. *)
Lemma letter_sub_idem s :
  has_double_open s = false →
  re_sub letter_match (re_sub letter_match s) = re_sub letter_match s.
Proof.
  assert (∀ n s, length s ≤ n → has_double_open s = false →
                 re_sub letter_match (re_sub letter_match s)
                 = re_sub letter_match s) as H;
    [|by eauto].
  clear s. induction n as [|n IH]; intros s Hlen Hs.
  { by destruct s; [|simpl in Hlen; lia]. }
  rewrite (letter_sub_unfold s). destruct s as [|a s]; [done|].
  destruct (letter_match (a :: s)) as [[out rest]|] eqn:Hm.
  - apply letter_match_Some in Hm as (c & Hc & [= -> ->] & ->). simpl.
    rewrite letter_sub_keep by by apply is_letter_not_open.
    f_equal. apply IH; [simpl in Hlen; lia|].
    by do 3 apply has_double_open_tail in Hs.
  - rewrite re_sub_skip.
    { f_equal. apply IH; [simpl in Hlen; lia|].
      by eapply has_double_open_tail. }
    destruct (letter_match (a :: re_sub letter_match s))
      as [[out rest]|] eqn:Hm'; [|done]. exfalso.
    apply letter_match_Some in Hm' as (c & Hc & [= -> Hsub] & ->).
    rewrite has_double_open_cons in Hs.
    apply orb_false_elim in Hs as [Hb _].
    destruct s as [|b s]; [done|].
    change (ascii_eqb "{" "{") with true in Hb. simpl in Hb.
    rewrite letter_sub_keep in Hsub by done.
    injection Hsub as -> Hsub.
    destruct (decide (head s = Some "}")) as [Hhd|Hhd].
    + destruct s as [|q s]; [done|]. injection Hhd as ->.
      assert (letter_match ("{" :: c :: "}" :: s) = Some ([c], s)) as Hyes
        by (apply letter_match_Some; eauto).
      congruence.
    + apply letter_sub_head in Hhd. by rewrite Hsub in Hhd.
Qed.

End Cleanup.

(** C2, as stated, fails: a doubly braced letter loses one pair of braces
    at each application. *)
Lemma clean_protected_case_not_idempotent :
  clean_protected_case (str "{{A}}") = str "{A}"
  ∧ clean_protected_case (clean_protected_case (str "{{A}}")) = str "A"
  ∧ ¬ (∀ t, clean_protected_case (clean_protected_case t)
            = clean_protected_case t).
Proof.
  split; [reflexivity|]. split; [reflexivity|].
  intros H. specialize (H (str "{{A}}")). vm_compute in H. discriminate H.
Qed.

(** ** HTTP helper *)

Section HttpGet.

Variable E : Env.
Implicit Types (req : Request) (st : State).

Ltac run := unfold mbind, M_bind, mret, M_ret, bind, ret, raise, print, sleep,
  emit, raise_for_status, requests_get; simpl.

(** An attempt answered by 429 sleeps and goes on with the next one. *)
Lemma http_get_loop_429 attempt rest req resp st r :
  server E (clock st) req = Replied r → status_code r = 429 →
  http_get_loop E (attempt :: rest) req resp st
  = http_get_loop E rest req (Some r) (after_429 req attempt st).
Proof. intros Hs Hr. simpl. run. by rewrite Hs, Hr. Qed.

(** An attempt answered otherwise ends the loop. *)
Lemma http_get_loop_final attempt rest req resp st :
  is_429 (server E (clock st) req) = false →
  http_get_loop E (attempt :: rest) req resp st
  = (final_result (server E (clock st) req), sent req st).
Proof.
  intros Hs. simpl. run. destruct (server E (clock st) req) as [r|]; [|done].
  simpl in *. rewrite Hs. by destruct (is_error_status (status_code r)).
Qed.

(** After the loop, the last response, a 429, raises. *)
Lemma http_get_loop_exhausted req st r :
  status_code r = 429 →
  http_get_loop E [] req (Some r) st = (Raise (HTTPError r), st).
Proof. intros Hr. simpl. run. by rewrite Hr. Qed.

End HttpGet.

(** C7. [http_get] sends at most three requests. When the first [k]
    answers are 429 it has waited [BACKOFF_FACTOR * 2^(attempt-1)] seconds
    after each of them (the state is [after_429s]); if [k < 3] and the next
    answer is not a 429, that answer ends the call with no further request:
    a transport error or an error status raises at once, any other
    response is returned; if [k = 3] the retries are exhausted and the
    failure of the last response is raised. *)
Theorem http_get_backoff (E : Env) (req : Request) (st : State) (k : nat) :
  (∀ i, i < k → is_429 (server E (clock st + i) req) = true) →
  clock (http_get E req st).2 ≤ clock st + MAX_RETRIES
  ∧ (k < MAX_RETRIES →
     is_429 (server E (clock st + k) req) = false →
     http_get E req st
     = (final_result (server E (clock st + k) req),
        sent req (after_429s req 1 k st)))
  ∧ (k = MAX_RETRIES →
     ∃ r, server E (clock st + 2) req = Replied r
          ∧ http_get E req st
            = (Raise (HTTPError r), after_429s req 1 MAX_RETRIES st)).
Proof.
  intros H429. unfold http_get, MAX_RETRIES. simpl seq.
  assert (∀ i, is_429 (server E (clock st + i) req) = true →
               ∃ r, server E (clock st + i) req = Replied r
                    ∧ status_code r = 429) as Hinv.
  { intros i Hi. destruct (server E (clock st + i) req) as [r|]; [|done].
    exists r. split; [done|]. by apply Nat.eqb_eq. }
  assert (∀ a rest resp st',
            clock (http_get_loop E (a :: rest) req resp st').2
            ≤ clock st' + length (a :: rest)) as Hbound.
  { intros a rest. revert a. induction rest as [|b rest IH]; intros a resp st'.
    - destruct (is_429 (server E (clock st') req)) eqn:H1.
      + destruct (server E (clock st') req) as [r|] eqn:Hs; [|done].
        apply Nat.eqb_eq in H1.
        rewrite (http_get_loop_429 E _ _ _ _ _ r), http_get_loop_exhausted by done.
        simpl. lia.
      + rewrite http_get_loop_final by done. simpl. lia.
    - destruct (is_429 (server E (clock st') req)) eqn:H1.
      + destruct (server E (clock st') req) as [r|] eqn:Hs; [|done].
        apply Nat.eqb_eq in H1.
        rewrite (http_get_loop_429 E _ _ _ _ _ r) by done.
        etrans; [apply IH|]. simpl. lia.
      + rewrite http_get_loop_final by done. simpl. lia. }
  split; [apply (Hbound 1 [2; 3])|].
  pose proof (Hinv 0) as H0. pose proof (Hinv 1) as H1. pose proof (Hinv 2) as H2.
  pose proof (H429 0) as G0. pose proof (H429 1) as G1. pose proof (H429 2) as G2.
  replace (clock st + 0) with (clock st) in * by lia.
  replace (clock st + 1) with (S (clock st)) in * by lia.
  replace (clock st + 2) with (S (S (clock st))) in * by lia.
  split.
  - intros Hk Hlast.
    destruct k as [|[|[|k]]]; [| | |lia].
    + replace (clock st + 0) with (clock st) in * by lia.
      by rewrite http_get_loop_final.
    + replace (clock st + 1) with (S (clock st)) in * by lia.
      destruct H0 as (r0 & Hs0 & Hr0); [apply G0; lia|].
      rewrite (http_get_loop_429 E _ _ _ _ _ r0) by done.
      by rewrite http_get_loop_final.
    + replace (clock st + 2) with (S (S (clock st))) in * by lia.
      destruct H0 as (r0 & Hs0 & Hr0); [apply G0; lia|].
      destruct H1 as (r1 & Hs1 & Hr1); [apply G1; lia|].
      rewrite (http_get_loop_429 E _ _ _ _ _ r0) by done.
      rewrite (http_get_loop_429 E _ _ _ _ _ r1) by done.
      by rewrite http_get_loop_final.
  - intros ->.
    destruct H0 as (r0 & Hs0 & Hr0); [apply G0; lia|].
    destruct H1 as (r1 & Hs1 & Hr1); [apply G1; lia|].
    destruct H2 as (r2 & Hs2 & Hr2); [apply G2; lia|].
    exists r2. split; [done|].
    rewrite (http_get_loop_429 E _ _ _ _ _ r0) by done.
    rewrite (http_get_loop_429 E _ _ _ _ _ r1) by done.
    rewrite (http_get_loop_429 E _ _ _ _ _ r2) by done.
    by rewrite http_get_loop_exhausted.
Qed.

(** C10. [http_get] is total and, whatever the servers answer, either
    returns a response whose status is not an error status (so not 429) or
    raises; it never returns [None]. *)
Theorem http_get_returns_success_or_raises (E : Env) (req : Request)
    (st : State) :
  (∃ r, (http_get E req st).1 = Ok (Some r)
        ∧ is_error_status (status_code r) = false
        ∧ status_code r ≠ 429)
  ∨ (∃ e, (http_get E req st).1 = Raise e).
Proof.
  unfold http_get.
  assert (∀ attempts resp st,
            match resp with
            | Some r => status_code r = 429
            | None => attempts ≠ []
            end →
            (∃ r, (http_get_loop E attempts req resp st).1 = Ok (Some r)
                  ∧ is_error_status (status_code r) = false
                  ∧ status_code r ≠ 429)
            ∨ (∃ e, (http_get_loop E attempts req resp st).1 = Raise e)) as H;
    [|by apply H].
  clear st. induction attempts as [|a rest IH]; intros resp st Hresp.
  - destruct resp as [r|]; [|done].
    rewrite http_get_loop_exhausted by done. right. by eexists.
  - destruct (is_429 (server E (clock st) req)) eqn:H1.
    + destruct (server E (clock st) req) as [r|] eqn:Hs; [|done].
      apply Nat.eqb_eq in H1.
      rewrite (http_get_loop_429 E _ _ _ _ _ r) by done. by apply IH.
    + rewrite http_get_loop_final by done.
      destruct (server E (clock st) req) as [r|]; simpl; [|right; by eexists].
      destruct (is_error_status (status_code r)) eqn:He; [right; by eexists|].
      left. exists r. repeat split; [done|]. simpl in H1.
      by apply Nat.eqb_neq.
Qed.

(** ** Metadata search *)

Section Search.

Variable E : Env.

Ltac run := unfold mbind, M_bind, mret, M_ret, bind, ret, raise; simpl.

(** The loop over the candidates has no effect on the state. *)
Lemma first_exact_state target items st :
  (first_exact target items st).2 = st.
Proof.
  induction items as [|item rest IH]; [done|]. simpl. run.
  destruct (candidate_title item) as [t|]; [|done]. simpl.
  destruct (text_eqb (normalize t) target); [|done].
  by destruct (item_DOI item).
Qed.







End Search.



(** ** The duplicate guard *)

Section Guard.

Variable E : Env.
Implicit Types (st : State) (d doi key : text).

Lemma quiet_step_refl st : quiet_step st st.
Proof. split; [done|]. by exists []. Qed.

Lemma quiet_step_trans st1 st2 st3 :
  quiet_step st1 st2 → quiet_step st2 st3 → quiet_step st1 st3.
Proof.
  intros [Hu1 (n1 & Ht1 & Hn1)] [Hu2 (n2 & Ht2 & Hn2)].
  split; [congruence|]. exists (n2 ++ n1).
  split; [by rewrite Ht2, Ht1, app_assoc|]. by apply Forall_app.
Qed.

Lemma quiet_ret {A} (a : A) : quiet (ret a).
Proof. intros st. apply quiet_step_refl. Qed.

Lemma quiet_raise {A} e : quiet (@raise A e).
Proof. intros st. apply quiet_step_refl. Qed.

Lemma quiet_bind {A B} (m : M A) (k : A → M B) :
  quiet m → (∀ a, quiet (k a)) → quiet (m ≫= k).
Proof.
  intros Hm Hk st. unfold mbind, M_bind, bind.
  specialize (Hm st). destruct (m st) as [[a|e] st1]; [|done].
  eapply quiet_step_trans; [done|]. apply Hk.
Qed.

Lemma quiet_try {A} (m : M A) (h : exn → M A) :
  quiet m → (∀ e, quiet (h e)) → quiet (try_except m h).
Proof.
  intros Hm Hh st. unfold try_except.
  specialize (Hm st). destruct (m st) as [[a|e] st1]; [done|].
  eapply quiet_step_trans; [done|]. apply Hh.
Qed.

Lemma quiet_emit ev : no_fetch ev → quiet (emit ev).
Proof.
  intros Hev st. split; [done|]. exists [ev]. split; [done|].
  by constructor.
Qed.

Lemma quiet_requests_get req : quiet (requests_get E req).
Proof.
  intros st. unfold requests_get.
  assert (quiet_step st {| used_dois := used_dois st; clock := S (clock st);
                           trace := EvGet req :: trace st |}).
  { split; [done|]. exists [EvGet req]. split; [done|]. by constructor. }
  by destruct (server E (clock st) req).
Qed.

Lemma quiet_raise_for_status resp : quiet (raise_for_status resp).
Proof.
  unfold raise_for_status.
  destruct (is_error_status _); [apply quiet_raise|apply quiet_ret].
Qed.

Lemma quiet_attr {A} (f : Response → A) r : quiet (attr f r).
Proof. destruct r; [apply quiet_ret|apply quiet_raise]. Qed.

Lemma quiet_http_get_loop attempts req resp :
  quiet (http_get_loop E attempts req resp).
Proof.
  revert resp. induction attempts as [|a rest IH]; intros resp; simpl.
  - destruct resp; [|apply quiet_raise].
    apply quiet_bind; [apply quiet_raise_for_status|].
    intros _. apply quiet_ret.
  - apply quiet_bind; [apply quiet_requests_get|]. intros r.
    destruct (status_code r =? 429)%nat.
    + apply quiet_bind; [by apply quiet_emit|]. intros _.
      apply quiet_bind; [by apply quiet_emit|]. intros _. apply IH.
    + apply quiet_bind; [apply quiet_raise_for_status|].
      intros _. apply quiet_ret.
Qed.

Lemma quiet_http_get req : quiet (http_get E req).
Proof. apply quiet_http_get_loop. Qed.

Lemma quiet_first_exact target items : quiet (first_exact target items).
Proof.
  induction items as [|item rest IH]; simpl; [apply quiet_ret|].
  apply quiet_bind.
  { destruct (candidate_title item); [apply quiet_ret|apply quiet_raise]. }
  intros cand. destruct (text_eqb _ _); [|done].
  destruct (item_DOI item); [apply quiet_ret|apply quiet_raise].
Qed.

Lemma quiet_search_doi_by_metadata title author :
  quiet (search_doi_by_metadata E title author).
Proof.
  unfold search_doi_by_metadata.
  apply quiet_bind; [apply quiet_http_get|]. intros resp.
  apply quiet_bind; [apply quiet_attr|]. intros json.
  apply quiet_bind.
  { destruct json; [apply quiet_ret|apply quiet_raise]. }
  intros [|it items]; [apply quiet_raise|].
  apply quiet_bind; [apply quiet_first_exact|].
  intros [d|]; [apply quiet_ret|apply quiet_raise].
Qed.

Lemma quiet_extract_arxiv_doi aid : quiet (extract_arxiv_doi E aid).
Proof.
  unfold extract_arxiv_doi.
  apply quiet_bind; [apply quiet_http_get|]. intros resp.
  apply quiet_bind; [apply quiet_attr|]. intros page.
  destruct (re_search match_href page); [apply quiet_ret|apply quiet_raise].
Qed.

Lemma quiet_get_used : quiet get_used.
Proof. intros st. apply quiet_step_refl. Qed.

(** A call of [fetch_bibtex_from_doi] records itself and is quiet from
    there on. *)
Lemma fetch_bibtex_from_doi_step doi st :
  quiet_step {| used_dois := used_dois st; clock := clock st;
                trace := EvFetch doi (used_dois st) :: trace st |}
             (fetch_bibtex_from_doi E doi st).2.
Proof.
  unfold fetch_bibtex_from_doi.
  unfold mbind at 1 2, M_bind at 1 2, bind at 1 2, get_used, emit. simpl.
  match goal with |- quiet_step ?s (?m ?s).2 => cut (quiet m); [by intros H|] end.
  apply quiet_bind; [|intros; apply quiet_ret].
  apply quiet_try.
  - apply quiet_bind; [apply quiet_http_get|intros; apply quiet_attr].
  - intros [resp| | | | | | |]; try apply quiet_raise.
    destruct (status_code resp =? 404)%nat; [|apply quiet_raise].
    apply quiet_bind; [by apply quiet_emit|]. intros _.
    apply quiet_bind; [apply quiet_http_get|intros; apply quiet_attr].
Qed.

End Guard.

Lemma new_events_app st st' new :
  trace st' = new ++ trace st → new_events st st' = new.
Proof.
  intros H. unfold new_events. rewrite H, length_app.
  replace (length new + length (trace st) - length (trace st))
    with (length new) by lia.
  apply take_app_length.
Qed.

(** ** Recording of the fetched DOIs *)

Section Recording.

Variable E : Env.
Implicit Types (st : State) (d doi key : text).

Lemma sent_requests_app tr1 tr2 :
  sent_requests (tr1 ++ tr2) = sent_requests tr1 + sent_requests tr2.
Proof. induction tr1 as [|[] tr1 IH]; simpl; lia. Qed.

Lemma calm_step_refl st : calm_step st st.
Proof. split; [done|]. exists []. repeat split; [done|simpl; lia]. Qed.

Lemma calm_step_trans st1 st2 st3 :
  calm_step st1 st2 → calm_step st2 st3 → calm_step st1 st3.
Proof.
  intros [Hu1 (n1 & Ht1 & Hn1 & Hc1)] [Hu2 (n2 & Ht2 & Hn2 & Hc2)].
  split; [congruence|]. exists (n2 ++ n1).
  split; [by rewrite Ht2, Ht1, app_assoc|]. split; [by apply Forall_app|].
  rewrite sent_requests_app. lia.
Qed.

Lemma calm_ret {A} (a : A) : calm (ret a).
Proof. intros st. apply calm_step_refl. Qed.

Lemma calm_raise {A} e : calm (@raise A e).
Proof. intros st. apply calm_step_refl. Qed.

Lemma calm_bind {A B} (m : M A) (k : A → M B) :
  calm m → (∀ a, calm (k a)) → calm (m ≫= k).
Proof.
  intros Hm Hk st. unfold mbind, M_bind, bind.
  specialize (Hm st). destruct (m st) as [[a|e] st1]; [|done].
  eapply calm_step_trans; [done|]. apply Hk.
Qed.

Lemma calm_try {A} (m : M A) (h : exn → M A) :
  calm m → (∀ e, calm (h e)) → calm (try_except m h).
Proof.
  intros Hm Hh st. unfold try_except.
  specialize (Hm st). destruct (m st) as [[a|e] st1]; [done|].
  eapply calm_step_trans; [done|]. apply Hh.
Qed.

Lemma calm_print l : calm (print l).
Proof.
  intros st. split; [done|]. exists [EvPrint l].
  repeat split; [by constructor|simpl; lia].
Qed.

Lemma calm_sleep secs : calm (sleep secs).
Proof.
  intros st. split; [done|]. exists [EvSleep secs].
  repeat split; [by constructor|simpl; lia].
Qed.

Lemma calm_requests_get req : calm (requests_get E req).
Proof.
  intros st. unfold requests_get.
  assert (calm_step st {| used_dois := used_dois st; clock := S (clock st);
                          trace := EvGet req :: trace st |}).
  { split; [done|]. exists [EvGet req].
    repeat split; [by constructor|simpl; lia]. }
  by destruct (server E (clock st) req).
Qed.

Lemma calm_raise_for_status resp : calm (raise_for_status resp).
Proof.
  unfold raise_for_status.
  destruct (is_error_status _); [apply calm_raise|apply calm_ret].
Qed.

Lemma calm_attr {A} (f : Response → A) r : calm (attr f r).
Proof. destruct r; [apply calm_ret|apply calm_raise]. Qed.

Lemma calm_http_get_loop attempts req resp :
  calm (http_get_loop E attempts req resp).
Proof.
  revert resp. induction attempts as [|a rest IH]; intros resp; simpl.
  - destruct resp; [|apply calm_raise].
    apply calm_bind; [apply calm_raise_for_status|].
    intros _. apply calm_ret.
  - apply calm_bind; [apply calm_requests_get|]. intros r.
    destruct (status_code r =? 429)%nat.
    + apply calm_bind; [apply calm_print|]. intros _.
      apply calm_bind; [apply calm_sleep|]. intros _. apply IH.
    + apply calm_bind; [apply calm_raise_for_status|].
      intros _. apply calm_ret.
Qed.

Lemma calm_http_get req : calm (http_get E req).
Proof. apply calm_http_get_loop. Qed.

Lemma calm_first_exact target items : calm (first_exact target items).
Proof.
  induction items as [|item rest IH]; simpl; [apply calm_ret|].
  apply calm_bind.
  { destruct (candidate_title item); [apply calm_ret|apply calm_raise]. }
  intros cand. destruct (text_eqb _ _); [|done].
  destruct (item_DOI item); [apply calm_ret|apply calm_raise].
Qed.

Lemma calm_search_doi_by_metadata title author :
  calm (search_doi_by_metadata E title author).
Proof.
  unfold search_doi_by_metadata.
  apply calm_bind; [apply calm_http_get|]. intros resp.
  apply calm_bind; [apply calm_attr|]. intros json.
  apply calm_bind.
  { destruct json; [apply calm_ret|apply calm_raise]. }
  intros [|it items]; [apply calm_raise|].
  apply calm_bind; [apply calm_first_exact|].
  intros [d|]; [apply calm_ret|apply calm_raise].
Qed.

Lemma calm_extract_arxiv_doi aid : calm (extract_arxiv_doi E aid).
Proof.
  unfold extract_arxiv_doi.
  apply calm_bind; [apply calm_http_get|]. intros resp.
  apply calm_bind; [apply calm_attr|]. intros page.
  destruct (re_search match_href page); [apply calm_ret|apply calm_raise].
Qed.

(** A call of [fetch_bibtex_from_doi] records itself and is calm from
    there on. *)
Lemma fetch_bibtex_from_doi_calm doi st :
  calm_step {| used_dois := used_dois st; clock := clock st;
               trace := EvFetch doi (used_dois st) :: trace st |}
            (fetch_bibtex_from_doi E doi st).2.
Proof.
  unfold fetch_bibtex_from_doi.
  unfold mbind at 1 2, M_bind at 1 2, bind at 1 2, get_used, emit. simpl.
  match goal with |- calm_step ?s (?m ?s).2 => cut (calm m); [by intros H|] end.
  apply calm_bind; [|intros; apply calm_ret].
  apply calm_try.
  - apply calm_bind; [apply calm_http_get|intros; apply calm_attr].
  - intros [resp| | | | | | |]; try apply calm_raise.
    destruct (status_code resp =? 404)%nat; [|apply calm_raise].
    apply calm_bind; [apply calm_print|]. intros _.
    apply calm_bind; [apply calm_http_get|intros; apply calm_attr].
Qed.

(** The state of a call at the start of a step is the state of the
    step. *)
Lemma call_state_here st : call_state st [] (used_dois st) = st.
Proof. destruct st. unfold call_state. simpl. by rewrite Nat.add_0_r. Qed.

(** The state of a call does not depend on where the run is cut. *)
Lemma call_state_app st st1 n1 earlier U :
  trace st1 = n1 ++ trace st →
  clock st1 = clock st + sent_requests n1 →
  call_state st (earlier ++ n1) U = call_state st1 earlier U.
Proof.
  intros Ht Hc. unfold call_state.
  rewrite Ht, Hc, sent_requests_app, app_assoc. f_equal. lia.
Qed.

(** An event of two runs in sequence is an event of one of them. *)
Lemma split_app {A} (later earlier n2 n1 : list A) x :
  later ++ x :: earlier = n2 ++ n1 →
  (∃ l, later = n2 ++ l ∧ n1 = l ++ x :: earlier)
  ∨ (∃ l, n2 = later ++ x :: l ∧ earlier = l ++ n1).
Proof.
  revert later. induction n2 as [|e n2 IH]; intros later; simpl.
  { intros <-. left. by exists later. }
  destruct later as [|e' later]; simpl.
  { intros [= -> ->]. right. by exists n2. }
  intros [= -> H]. destruct (IH _ H) as [(l & -> & ->)|(l & -> & ->)].
  - left. by exists l.
  - right. by exists l.
Qed.

Lemma calm_recording_step st st' : calm_step st st' → recording_step E st st'.
Proof.
  intros [Hu (new & Ht & Hn & Hc)]. split; [by rewrite Hu|].
  exists new. split; [done|]. split; [done|]. split; [|split].
  - intros d U Hin. rewrite Forall_forall in Hn. by apply Hn in Hin.
  - intros later d U earlier ->. apply Forall_app in Hn as [_ Hn].
    by inversion Hn.
  - intros d Hd. left. by rewrite <- Hu.
Qed.

Lemma recording_step_refl st : recording_step E st st.
Proof. apply calm_recording_step, calm_step_refl. Qed.

Lemma recording_step_trans st1 st2 st3 :
  recording_step E st1 st2 → recording_step E st2 st3 →
  recording_step E st1 st3.
Proof.
  intros [Hu1 (n1 & Ht1 & Hc1 & Hf1 & Hr1 & Ha1)]
         [Hu2 (n2 & Ht2 & Hc2 & Hf2 & Hr2 & Ha2)].
  split; [by etrans|]. exists (n2 ++ n1).
  split; [by rewrite Ht2, Ht1, app_assoc|].
  split; [rewrite sent_requests_app; lia|]. split; [|split].
  - intros d U [Hin|Hin]%elem_of_app.
    + destruct (Hf2 d U Hin) as (? & ? & ?).
      repeat split; [done|by etrans|done].
    + destruct (Hf1 d U Hin) as (? & ? & ?).
      repeat split; [done|done|by etrans].
  - intros later d U earlier Heq. symmetry in Heq.
    apply split_app in Heq as [(l & -> & ->)|(l & -> & ->)].
    + destruct (Hr1 l d U earlier eq_refl)
        as [(own & after & -> & Hown) Hrec].
      split.
      { exists own, (n2 ++ after). split; [by rewrite app_assoc|done]. }
      intros Hret. destruct (Hrec Hret) as [Hd Hl].
      split; [by apply Hu2|].
      intros d' U' [Hin|Hin]%elem_of_app; [|by eapply Hl].
      destruct (Hf2 d' U' Hin) as (_ & Hsub & _). by apply Hsub.
    + destruct (Hr2 later d U l eq_refl)
        as [(own & after & -> & Hown) Hrec].
      unfold returned, call_events.
      rewrite (call_state_app st1 st2) by done. split; [|done].
      exists own, after. split; [done|].
      by rewrite Hown, Ht1, <- app_assoc.
  - intros d Hd. destruct (Ha2 d Hd) as [Hd2|(later & U & earlier & -> & Hret)].
    + destruct (Ha1 d Hd2) as [?|(later & U & earlier & -> & Hret)];
        [by left|].
      right. exists (n2 ++ later), U, earlier. by rewrite app_assoc.
    + right. exists later, U, (earlier ++ n1). split.
      { by rewrite <- app_assoc. }
      unfold returned. by rewrite (call_state_app st1 st2).
Qed.

Lemma calm_is_recording {A} (m : M A) : calm m → recording E m.
Proof. intros Hm st. apply calm_recording_step, Hm. Qed.

Lemma recording_ret {A} (a : A) : recording E (ret a).
Proof. apply calm_is_recording, calm_ret. Qed.

Lemma recording_bind_at {A B} (m : M A) (k : A → M B) st :
  recording_step E st (m st).2 → (∀ a, recording E (k a)) →
  recording_step E st ((m ≫= k) st).2.
Proof.
  intros Hm Hk. unfold mbind, M_bind, bind.
  destruct (m st) as [[a|e] st1]; [|done].
  eapply recording_step_trans; [done|]. apply Hk.
Qed.

Lemma recording_bind {A B} (m : M A) (k : A → M B) :
  recording E m → (∀ a, recording E (k a)) → recording E (m ≫= k).
Proof. intros Hm Hk st. by apply recording_bind_at. Qed.

Lemma recording_try_at {A} (m : M A) (h : exn → M A) st :
  recording_step E st (m st).2 → (∀ e, recording E (h e)) →
  recording_step E st (try_except m h st).2.
Proof.
  intros Hm Hh. unfold try_except.
  destruct (m st) as [[a|e] st1]; [done|].
  eapply recording_step_trans; [done|]. apply Hh.
Qed.

Lemma recording_try {A} (m : M A) (h : exn → M A) :
  recording E m → (∀ e, recording E (h e)) → recording E (try_except m h).
Proof. intros Hm Hh st. by apply recording_try_at. Qed.

(** The only call among the events of a fetch is the one they start
    with. *)
Lemma split_last_fetch (new later earlier : list Event) d U doi U0 :
  Forall no_fetch new →
  new ++ [EvFetch doi U0] = later ++ EvFetch d U :: earlier →
  later = new ∧ d = doi ∧ U = U0 ∧ earlier = [].
Proof.
  intros Hn. destruct earlier as [|e earlier _] using rev_ind.
  - intros [-> [= -> ->]]%app_inj_tail. done.
  - rewrite app_comm_cons, app_assoc. intros [-> _]%app_inj_tail.
    apply Forall_app in Hn as [_ Hn]. by inversion Hn.
Qed.

(** The two statements of every branch that fetches: the fetch, then the
    addition to [used_dois]. Entered with a DOI that is not in
    [used_dois], they record the DOI if the fetch returns, and only
    then. *)
Lemma fetch_then_add_recording doi st :
  doi ∉ used_dois st →
  recording_step E st
    ((fetched ← fetch_bibtex_from_doi E doi;
      used_add doi;; mret (Some fetched)) st).2.
Proof.
  intros Hd. unfold mbind, M_bind, bind, mret, M_ret, ret, used_add.
  pose proof (fetch_bibtex_from_doi_calm doi st) as [Hu (new & Ht & Hn & Hc)].
  simpl in Hu, Ht, Hc.
  destruct (fetch_bibtex_from_doi E doi st) as [[fetched|e] st1] eqn:Hfetch;
    simpl in *.
  - split; [rewrite Hu; apply union_subseteq_r|].
    exists (new ++ [EvFetch doi (used_dois st)]).
    split; [by rewrite Ht, <- app_assoc|].
    split; [rewrite sent_requests_app; simpl; lia|]. split; [|split].
    + intros d U [Hin|Hin]%elem_of_app.
      { rewrite Forall_forall in Hn. by apply Hn in Hin. }
      apply list_elem_of_singleton in Hin as [= -> ->].
      repeat split; [done..|]. rewrite Hu. apply union_subseteq_r.
    + intros later d U earlier Heq.
      apply split_last_fetch in Heq as (-> & -> & -> & ->); [|done].
      split.
      { exists new, []. split; [done|].
        by rewrite call_state_here, Hfetch. }
      intros _.
      split; [apply elem_of_union_l; by apply elem_of_singleton_2|].
      intros d' U' Hin. rewrite Forall_forall in Hn. by apply Hn in Hin.
    + intros d [->%elem_of_singleton|Hin]%elem_of_union.
      * right. exists new, (used_dois st), []. split; [done|].
        unfold returned. by rewrite call_state_here, Hfetch.
      * left. by rewrite <- Hu.
  - split; [by rewrite Hu|].
    exists (new ++ [EvFetch doi (used_dois st)]).
    split; [by rewrite Ht, <- app_assoc|].
    split; [rewrite sent_requests_app; simpl; lia|]. split; [|split].
    + intros d U [Hin|Hin]%elem_of_app.
      { rewrite Forall_forall in Hn. by apply Hn in Hin. }
      apply list_elem_of_singleton in Hin as [= -> ->].
      repeat split; [done..|]. by rewrite Hu.
    + intros later d U earlier Heq.
      apply split_last_fetch in Heq as (-> & -> & -> & ->); [|done].
      split.
      { exists new, []. split; [done|].
        by rewrite call_state_here, Hfetch. }
      intros Hret.
      unfold returned in Hret. by rewrite call_state_here, Hfetch in Hret.
    + intros d Hin. left. by rewrite <- Hu.
Qed.

(** The test on [used_dois] in front of them. *)
Lemma recording_check doi (k : M (option text)) :
  recording E k →
  recording E (used ← get_used;
               if bool_decide (doi ∉ used) then
                 fetched ← fetch_bibtex_from_doi E doi;
                 used_add doi;; mret (Some fetched)
               else k).
Proof.
  intros Hk st. unfold mbind at 1, M_bind at 1, bind at 1, get_used.
  case_bool_decide; [by apply fetch_then_add_recording|apply Hk].
Qed.

Lemma recording_branch_arxiv (doi : option text) urlf repl :
  recording E (branch_arxiv E doi urlf repl).
Proof.
  unfold branch_arxiv. case_match; [|apply recording_ret].
  apply recording_try; [|intros; apply recording_ret].
  apply recording_bind.
  { apply calm_is_recording, calm_extract_arxiv_doi. }
  intros arxiv_doi. apply recording_check, recording_ret.
Qed.

Lemma recording_branch_metadata key ent (doi : option text) repl :
  recording E (branch_metadata E key ent doi repl).
Proof.
  unfold branch_metadata. case_match; [|apply recording_ret].
  apply recording_try.
  - apply recording_bind.
    { apply calm_is_recording, calm_search_doi_by_metadata. }
    intros found. apply recording_check.
    apply calm_is_recording, calm_bind; [apply calm_print|].
    intros; apply calm_ret.
  - intros e. apply calm_is_recording, calm_bind; [apply calm_print|].
    intros; apply calm_ret.
Qed.

Lemma recording_branch_doi (doi : option text) repl :
  recording E (branch_doi E doi repl).
Proof.
  unfold branch_doi. destruct doi as [[|c d]|]; try apply recording_ret.
  case_match; [|apply recording_ret].
  apply recording_check, recording_ret.
Qed.

Lemma recording_process_entry key ent : recording E (process_entry E key ent).
Proof.
  unfold process_entry.
  apply recording_bind; [apply recording_branch_arxiv|]. intros repl2.
  apply recording_bind; [apply recording_branch_metadata|]. intros repl3.
  apply recording_bind; [apply recording_branch_doi|]. intros repl4.
  apply recording_ret.
Qed.

Lemma recording_process_raw_block block :
  recording E (process_raw_block E block).
Proof.
  unfold process_raw_block.
  apply recording_bind; [|intros [r|]; apply recording_ret].
  destruct (raw_block_doi block) as [[|c d]|]; try apply recording_ret.
  intros st. unfold mbind at 1, M_bind at 1, bind at 1, get_used.
  case_bool_decide; [|apply recording_ret].
  apply recording_try_at; [|intros; apply recording_ret].
  by apply fetch_then_add_recording.
Qed.

Lemma recording_process_match structured m :
  recording E (process_match E structured m).
Proof.
  unfold process_match.
  apply recording_bind; [|intros; apply recording_ret].
  destruct (structured !! m_key m);
    [apply recording_process_entry|apply recording_process_raw_block].
Qed.

Lemma recording_process_matches structured ms :
  recording E (process_matches E structured ms).
Proof.
  induction ms as [|m ms IH]; simpl; [apply recording_ret|].
  apply recording_bind; [apply recording_process_match|]. intros r.
  apply recording_bind; [apply IH|]. intros; apply recording_ret.
Qed.

Lemma recording_process_bib_file raw_text entries :
  recording E (process_bib_file E raw_text entries).
Proof.
  unfold process_bib_file.
  apply recording_bind; [apply recording_process_matches|]. intros rs.
  apply calm_is_recording, calm_bind; [apply calm_print|].
  intros; apply calm_ret.
Qed.

End Recording.

(** C5, as the code has it. In every branch the test on [used_dois] comes
    first, then the fetch, then the addition to [used_dois]. Over a run of
    [process_bib_file]: [used_dois] only grows; every call of
    [fetch_bibtex_from_doi] is for a DOI that is not in [used_dois] when
    the call starts, in the state that [call_state] describes (the events
    that follow start with the call's own); a call that returns leaves its
    DOI in [used_dois], where every later call of the run and the end of
    the run find it; and every DOI added to [used_dois] was fetched by a
    call that returned: a call that raises adds nothing. *)
Theorem fetch_tested_then_recorded (E : Env) (raw_text : text)
    (entries : list Entry) (st : State) :
  let st' := (process_bib_file E raw_text entries st).2 in
  let new := new_events st st' in
  used_dois st ⊆ used_dois st'
  ∧ trace st' = new ++ trace st
  ∧ (∀ d U, EvFetch d U ∈ new →
            (d ∉ U) ∧ used_dois st ⊆ U ∧ U ⊆ used_dois st')
  ∧ (∀ later d U earlier,
       new = later ++ EvFetch d U :: earlier →
       call_events E st later earlier d U
       ∧ (returned E st earlier d U →
          d ∈ used_dois st' ∧ ∀ d' U', EvFetch d' U' ∈ later → d ∈ U'))
  ∧ (∀ d, d ∈ used_dois st' →
          d ∈ used_dois st
          ∨ ∃ later U earlier,
              new = later ++ EvFetch d U :: earlier
              ∧ returned E st earlier d U).
Proof.
  intros st' new.
  destruct (recording_process_bib_file E raw_text entries st)
    as (Hu & new' & Ht & _ & Hf & Hr & Ha).
  assert (new = new') as -> by by apply new_events_app.
  done.
Qed.

(** The fetch of the only record of a file returns, and its DOI is in
    [used_dois] at the end of the run. *)
Lemma fetch_tested_then_recorded_witness :
  let E := sample_env (always (ok_response fetched_k1)) in
  let st' := (process_bib_file E one_doi_text one_doi_entries
                initial_state).2 in
  returned E initial_state [] (str "10.1/x") ∅
  ∧ str "10.1/x" ∈ used_dois st'.
Proof.
  intros E st'.
  assert (new_events initial_state st'
          = [EvPrint Finished;
             EvGet (plain (str "https://doi2bib.org/bib/10.1/x"))]
            ++ EvFetch (str "10.1/x") ∅ :: []) as Hnew
    by (vm_compute; reflexivity).
  assert (returned E initial_state [] (str "10.1/x") ∅) as Hret
    by (vm_compute; exact I).
  split; [exact Hret|].
  exact (proj1 (proj2 (proj1 (proj2 (proj2 (proj2
           (fetch_tested_then_recorded E one_doi_text one_doi_entries
              initial_state))))
           _ _ _ _ Hnew) Hret)).
Defined.

(** C5, as stated, fails: the fetch of the DOI of the only record starts
    while [used_dois] is empty; the DOI is recorded afterwards. *)
Lemma fetch_precedes_record :
  let run := process_bib_file (sample_env (always (ok_response fetched_k1)))
               one_doi_text one_doi_entries initial_state in
  run.1 = Ok fetched_k1
  ∧ trace run.2 = [EvPrint Finished;
                   EvGet (plain (str "https://doi2bib.org/bib/10.1/x"));
                   EvFetch (str "10.1/x") ∅]
  ∧ (str "10.1/x" ∉ (∅ : gset text))
  ∧ used_dois run.2 = {[str "10.1/x"]}.
Proof.
  split; [vm_compute; reflexivity|].
  split; [vm_compute; reflexivity|].
  split; [apply not_elem_of_empty|vm_compute; reflexivity].
Qed.




(** ** Branches of the pipeline *)

(** C8, as the code has it. A parsed record whose DOI field is populated,
    whatever its link field, never enters the link-only, arXiv or
    metadata branch. It is handled by the direct-DOI branch: if the DOI
    is not yet in [used_dois], [fetch_bibtex_from_doi] is called for it,
    its result is the replacement and the DOI is recorded (a failure of
    the fetch propagates); if the DOI is already in [used_dois], nothing
    is fetched and the fallback re-renders the record. *)
Theorem doi_record_takes_doi_branch (E : Env) (key : text) (ent : Entry)
    (c : ascii) (d : text) (st : State) :
  fields ent !! str "doi" = Some (c :: d) →
  strip (get_field ent "url") ≠ [] →
  process_entry E key ent st
  = if bool_decide (c :: d ∈ used_dois st)
    then (Ok (clean_protected_case (writer_write E ent)), st)
    else match fetch_bibtex_from_doi E (c :: d) st with
         | (Ok fetched, st') =>
             (Ok fetched, {| used_dois := {[c :: d]} ∪ used_dois st';
                             clock := clock st'; trace := trace st' |})
         | (Raise e, st') => (Raise e, st')
         end.
Proof.
  intros Hdoi _. unfold process_entry, branch_url_only, branch_arxiv,
    branch_metadata, branch_doi. rewrite Hdoi. simpl.
  unfold mbind, M_bind, bind, mret, M_ret, ret, get_used, used_add. simpl.
  repeat case_bool_decide; try done.
  by destruct (fetch_bibtex_from_doi E (c :: d) st) as [[fetched|e] st'].
Qed.

Lemma doi_record_takes_doi_branch_witness :
  process_entry (sample_env (always (ok_response (str "@article{fetched}"))))
    (str "k1")
    (entry_of "k1" [("doi", "10.3/z"); ("url", "https://example.com/p")]%string)
    initial_state
  = (Ok (str "@article{fetched}"),
     {| used_dois := {[str "10.3/z"]}; clock := 1;
        trace := [EvGet (plain (str "https://doi2bib.org/bib/10.3/z"));
                  EvFetch (str "10.3/z") ∅] |}).
Proof.
  rewrite (doi_record_takes_doi_branch _ _ _ "1" (str "0.3/z"));
    [vm_compute; reflexivity|reflexivity|vm_compute; discriminate].
Defined.

(** C8, as stated, fails: of two records with the same DOI field and a
    link field, the second is not fetched by its DOI; the fallback
    re-renders it. *)
Lemma recorded_doi_record_takes_fallback :
  let E := sample_env (always (ok_response (str "@article{fetched}"))) in
  let run := process_bib_file E same_doi_text same_doi_entries initial_state in
  run.1 = Ok (str "@article{fetched}@entry{k2}")
  ∧ new_events initial_state run.2
    = [EvPrint Finished;
       EvGet (plain (str "https://doi2bib.org/bib/10.3/z"));
       EvFetch (str "10.3/z") ∅].
Proof. split; vm_compute; reflexivity. Qed.

(** ** Records of the same key *)

Lemma structured_of_last pre e post :
  Forall (fun e' => ID e' ≠ ID e) post →
  structured_of (pre ++ e :: post) !! ID e = Some e.
Proof.
  unfold structured_of. rewrite fold_left_app. simpl.
  generalize (fold_left (fun (d : gmap text Entry) e0 => <[ID e0:=e0]> d)
                pre ∅).
  intros d0 Hpost.
  assert (<[ID e:=e]> d0 !! ID e = Some e) as H by apply lookup_insert_eq.
  revert H. generalize (<[ID e:=e]> d0). clear d0.
  induction Hpost as [|p post Hp _ IH]; intros d0 H0; simpl; [done|].
  apply IH. by rewrite lookup_insert_ne.
Qed.

(** C9, as the code has it. Records that share a key are not passed
    through: each match of that key is processed as any parsed record,
    with the fields of the last loaded entry of that key. *)
Theorem same_key_records_use_last_entry (E : Env) (pre post : list Entry)
    (e : Entry) (m : Match) :
  Forall (fun e' => ID e' ≠ ID e) post →
  m_key m = ID e →
  process_match E (structured_of (pre ++ e :: post)) m
  = (repl ← process_entry E (m_key m) e;
     mret {| r_start := m_start m; r_end := m_end m; r_text := repl |}).
Proof.
  intros Hpost Hkey. unfold process_match.
  by rewrite Hkey, structured_of_last.
Qed.

Lemma same_key_records_use_last_entry_witness :
  let E := sample_env (always (status_response 500)) in
  let e := entry_of "k" [("url", "https://example.com/a")]%string in
  let m := {| m_start := 0; m_end := 38; m_key := str "k";
              m_block := str "@misc{k, url={https://example.com/a}}"
                         ++ [nl] |} in
  Forall (fun e' => ID e' ≠ ID e) []
  ∧ m_key m = ID e
  ∧ process_match E (structured_of same_key_entries) m
    = (repl ← process_entry E (m_key m) e;
       mret {| r_start := m_start m; r_end := m_end m; r_text := repl |}).
Proof.
  intros E e m.
  assert (Forall (fun e' => ID e' ≠ ID e) []) as H1 by constructor.
  assert (m_key m = ID e) as H2 by reflexivity.
  split; [exact H1|]. split; [exact H2|].
  exact (same_key_records_use_last_entry E [e] [] e m H1 H2).
Defined.

(** C9, as stated, fails: both records of one key are rewritten. *)
Lemma same_key_records_rewritten :
  let E := sample_env (always (status_response 500)) in
  let block := misc_block (str "k") [] [] (str "https://example.com/a")
                 (str "2025") (str "2025-06-01") in
  map (fun m => m_block m) (finditer same_key_text)
  = [str "@misc{k, url={https://example.com/a}}" ++ [nl];
     str "@misc{k, url={https://example.com/a}}" ++ [nl]]
  ∧ (process_matches E (structured_of same_key_entries)
       (finditer same_key_text) initial_state).1
    = Ok [ {| r_start := 0; r_end := 38; r_text := block |};
           {| r_start := 38; r_end := 76; r_text := block |} ]
  ∧ (process_bib_file E same_key_text same_key_entries initial_state).1
    = Ok (block ++ block)
  ∧ block ++ block ≠ same_key_text.
Proof.
  repeat split; try (vm_compute; reflexivity). vm_compute. discriminate.
Qed.

(** ** The arXiv branch *)

(** C4 fails on the code: from the link [https://doi.org/10.2/y] of the
    abstract page, [extract_arxiv_doi] keeps what follows the last slash,
    [y], and the branch fetches and records that. *)
Theorem arxiv_doi_loses_registrant_prefix :
  let E := sample_env arxiv_server in
  let run := process_entry E (str "k") arxiv_entry initial_state in
  re_search match_href arxiv_page = Some (str "https://doi.org/10.2/y")
  ∧ (extract_arxiv_doi E (str "1234.5678") initial_state).1 = Ok (str "y")
  ∧ run.1 = Ok (str "@article{fetched}")
  ∧ trace run.2
    = [EvGet (plain (str "https://doi2bib.org/bib/y"));
       EvFetch (str "y") ∅;
       EvGet (plain (str "https://arxiv.org/abs/1234.5678"))]
  ∧ used_dois run.2 = {[str "y"]}.
Proof. repeat split; vm_compute; reflexivity. Qed.

(** ** Instances *)

Lemma reassembly_correct_witness :
  Forall (fun p => body p ≠ []) sample_pieces
  ∧ rev (replacements_at 0 sample_pieces) ≡ₚ replacements_at 0 sample_pieces
  ∧ apply_replacements (source sample_pieces [nl])
      (rev (replacements_at 0 sample_pieces))
    = str "% refs" ++ [nl] ++ str "@article{one}@book{two}" ++ [nl].
Proof.
  assert (Forall (fun p => body p ≠ []) sample_pieces) as H1
    by (repeat constructor; discriminate).
  assert (rev (replacements_at 0 sample_pieces)
          ≡ₚ replacements_at 0 sample_pieces) as H2
    by (symmetry; apply Permutation_rev).
  split; [exact H1|]. split; [exact H2|].
  exact (reassembly_correct sample_pieces [nl] _ H1 H2).
Defined.

Lemma http_get_backoff_witness :
  let E := sample_env busy_twice in
  let req := plain (str "https://doi2bib.org/bib/10.1/x") in
  (∀ i, i < 2 → is_429 (server E (clock initial_state + i) req) = true)
  ∧ http_get E req initial_state
    = (Ok (Some (ok_response (str "done"))),
       {| used_dois := ∅; clock := 3;
          trace := [EvGet req;
                    EvSleep 2; EvPrint (WarnRetry (req_url req) 2); EvGet req;
                    EvSleep 1; EvPrint (WarnRetry (req_url req) 1); EvGet req]
       |}).
Proof.
  intros E req.
  assert (∀ i, i < 2 →
               is_429 (server E (clock initial_state + i) req) = true) as H
    by (intros [|[|i]] Hi; [reflexivity|reflexivity|lia]).
  split; [exact H|].
  apply (proj1 (proj2 (http_get_backoff E req initial_state 2 H)));
    [unfold MAX_RETRIES; lia|reflexivity].
Defined.


(** The cleanup of the title artifact. *)
Example clean_title_artifact :
  clean_protected_case (str "title = {{A}new result}")
  = str "title = {Anew result}".
Proof. reflexivity. Qed.

(** The boundary scan of a small file. *)
Example finditer_two_records :
  map (fun m => (m_start m, m_end m, m_key m)) (finditer same_doi_text)
  = [(0, 56, str "k1"); (56, 112, str "k2")].
Proof. vm_compute. reflexivity. Qed.

(** The link-only branch synthesises a block without any request. *)
Example url_only_record :
  process_entry (sample_env (always (status_response 500))) (str "k")
    (entry_of "k" [("url", "https://example.com/paper")]%string) initial_state
  = (Ok (misc_block (str "k") [] [] (str "https://example.com/paper")
           (str "2025") (str "2025-06-01")),
     initial_state).
Proof. vm_compute. reflexivity. Qed.

(** ** Boundary scan and reassembly of a file *)

Section File.

Variable E : Env.

Lemma scan_body_app prev s : s = (scan_body prev s).1 ++ (scan_body prev s).2.
Proof.
  revert prev. induction s as [|a s IH]; intros prev; simpl; [done|].
  destruct (is_newline prev && negb (is_None (match_marker (a :: s))));
    [done|].
  specialize (IH a). destruct (scan_body a s) as [b r]. simpl in *.
  by rewrite <- IH.
Qed.

Lemma match_marker_app s s2 :
  match_marker s = Some s2 → ∃ pre, s = "@" :: pre ++ s2.
Proof.
  unfold match_marker.
  destruct (strip_prefix (str "@") s) as [s1|] eqn:H1; [|done].
  destruct (span is_word s1) as [[|w ws] s3] eqn:H2; [done|].
  intros H3. apply strip_prefix_Some in H1, H3. apply span_app in H2.
  subst. exists ((w :: ws) ++ str "{"). simpl. by rewrite <- app_assoc.
Qed.

Lemma match_entry_consumes s key rest :
  match_entry s = Some (key, rest) → ∃ a pre, s = a :: pre ++ rest.
Proof.
  unfold match_entry.
  destruct (match_marker s) as [s2|] eqn:H1; [|done].
  destruct (break_at (ascii_eqb ",") s2) as [[[|k ks] [|comma s3]]|] eqn:H2;
    try done.
  intros [= <- <-]. apply match_marker_app in H1 as [pre ->].
  apply break_at_app in H2 as ->.
  exists "@", (pre ++ (k :: ks) ++ comma :: (scan_body comma s3).1).
  rewrite (scan_body_app comma s3) at 1.
  simpl. f_equal. rewrite <- !app_assoc. simpl. do 2 f_equal.
  by rewrite <- app_assoc.
Qed.

Lemma finditer_aux_drop pos k s :
  finditer_aux pos k s = finditer_aux (pos + k) 0 (drop k s).
Proof.
  revert pos k. induction s as [|a s IH]; intros pos [|k]; simpl; try done.
  - by rewrite Nat.add_0_r.
  - rewrite IH. f_equal. lia.
Qed.

Lemma covers_app pos pre s ms :
  covers (pos + length pre) s ms → covers pos (pre ++ s) ms.
Proof.
  destruct ms as [|m ms]; [done|]. simpl.
  intros (gap & rest & -> & Hne & Hs & He & Hc).
  exists (pre ++ gap), rest. rewrite <- app_assoc.
  repeat split; try done. rewrite length_app. lia.
Qed.

(** The matches of the boundary scan lie in the text one after the
    other. *)
Lemma finditer_aux_covers s pos : covers pos s (finditer_aux pos 0 s).
Proof.
  assert (∀ n s pos, length s ≤ n → covers pos s (finditer_aux pos 0 s)) as H;
    [|by eauto].
  clear. induction n as [|n IH]; intros s pos Hlen.
  { by destruct s; [|simpl in Hlen; lia]. }
  destruct s as [|a s]; [done|]. simpl.
  destruct (match_entry (a :: s)) as [[key rest]|] eqn:Hm.
  - apply match_entry_consumes in Hm as (a' & pre & [= <- ->]).
    rewrite length_app.
    replace (S (length pre + length rest) - length rest)
      with (S (length pre)) by lia.
    change (take (S (length pre)) (a :: pre ++ rest))
      with (a :: take (length pre) (pre ++ rest)).
    rewrite take_app_length.
    simpl. exists [], rest. simpl. rewrite Nat.sub_0_r.
    repeat split; try done; try lia.
    rewrite finditer_aux_drop, drop_app_length.
    replace (S pos + length pre) with (pos + S (length pre)) by lia.
    apply IH. simpl in Hlen. rewrite length_app in Hlen. lia.
  - apply (covers_app pos [a]). simpl.
    replace (pos + 1) with (S pos) by lia.
    apply IH. simpl in Hlen. lia.
Qed.

Lemma finditer_covers raw_text : covers 0 raw_text (finditer raw_text).
Proof. apply finditer_aux_covers. Qed.




End File.

(** ** Remarks *)

(** On a text without two adjacent opening braces the first pass does
    nothing and the cleanup is idempotent. *)
Lemma clean_protected_case_plain_idempotent (t : text) :
  has_double_open t = false →
  clean_protected_case (clean_protected_case t) = clean_protected_case t.
Proof.
  intros Ht. unfold clean_protected_case.
  rewrite (merge_id t) by done.
  rewrite merge_id by by apply letter_sub_no_double.
  by apply letter_sub_idem.
Qed.

Lemma space_not_word c : is_space c = true → is_word c = false.
Proof.
  destruct c as [[] [] [] [] [] [] [] []]; vm_compute; congruence.
Qed.

Lemma markup_not_word c : is_markup c = true → is_word c = false.
Proof.
  unfold is_markup. intros H.
  apply orb_true_iff in H as [H|H]; [apply orb_true_iff in H as [H|H]|];
    apply ascii_eqb_true in H as ->; reflexivity.
Qed.

Lemma filter_word_lstrip (s : text) :
  filter is_word (lstrip s) = filter is_word s.
Proof.
  unfold lstrip. induction s as [|a s IH]; simpl; [done|].
  destruct (is_space a) eqn:Ha; [|done].
  destruct (span is_space s) as [u v]. simpl in *.
  rewrite filter_cons_False; [done|].
  rewrite (space_not_word a Ha). by intros [].
Qed.

Lemma filter_word_rev (s : text) :
  filter is_word (rev s) = rev (filter is_word s).
Proof.
  induction s as [|a s IH]; simpl; [done|].
  rewrite filter_app, IH, filter_cons.
  destruct (decide (is_word a)); simpl.
  - by rewrite filter_cons_True, filter_nil.
  - by rewrite filter_cons_False, filter_nil, app_nil_r.
Qed.

(** X16. The query title is normalized as the title of the record would
    be: the markup and the white space that [search_doi_by_metadata]
    strips first are not word characters, so they play no part in the
    exact-match test. *)
Lemma normalize_clean_title (title : text) :
  normalize (clean_title title) = normalize title.
Proof.
  unfold normalize, clean_title, strip, rstrip. f_equal.
  rewrite filter_word_rev, filter_word_lstrip, filter_word_rev.
  rewrite rev_involutive, filter_word_lstrip.
  induction title as [|a s IH]; [done|].
  rewrite (filter_cons (fun c => negb (is_markup c))), (filter_cons is_word).
  destruct (is_markup a) eqn:Ha; simpl.
  - rewrite (markup_not_word a Ha). simpl. apply IH.
  - rewrite filter_cons. destruct (decide (is_word a)); by rewrite IH.
Qed.

(* ===================================================================== *)
(** * Further properties *)
(* ===================================================================== *)

(** ** What the cleanup deletes *)

Section CleanupDeletes.

Implicit Types (s t : text) (c : ascii).

Lemma without_braces_app s t :
  without_braces (s ++ t) = without_braces s ++ without_braces t.
Proof. apply filter_app. Qed.

Lemma without_braces_brace c s :
  is_brace c = true → without_braces (c :: s) = without_braces s.
Proof.
  intros Hc. unfold without_braces. rewrite filter_cons_False; [done|].
  rewrite Hc. by intros [].
Qed.

Lemma without_braces_other c s :
  is_brace c = false → without_braces (c :: s) = c :: without_braces s.
Proof.
  intros Hc. unfold without_braces. rewrite filter_cons_True; [done|].
  by rewrite Hc.
Qed.

Lemma is_letter_not_brace c : is_letter c = true → is_brace c = false.
Proof.
  intros Hc. unfold is_brace.
  by rewrite (is_letter_not_open c Hc), (is_letter_not_close c Hc).
Qed.

Lemma letter_match_deletes_braces : deletes_braces letter_match.
Proof.
  intros s out rest (c & Hc & -> & ->)%letter_match_Some.
  exists ["{"; c; "}"]. split; [done|]. split; [|simpl; lia].
  rewrite (without_braces_brace "{") by done.
  rewrite !(without_braces_other c) by by apply is_letter_not_brace.
  by rewrite (without_braces_brace "}").
Qed.

Lemma merge_match_deletes_braces : deletes_braces merge_match.
Proof.
  intros s out rest. unfold merge_match.
  destruct (match_title s) as [[[[g1 g2] g3] r]|] eqn:H; [|done].
  intros [= <- <-]. apply match_title_shape in H as [-> _].
  exists (g1 ++ "{" :: "{" :: g2 :: "}" :: g3 ++ ["}"]).
  split; [|split].
  - rewrite <- app_assoc. simpl. do 5 f_equal. by rewrite <- app_assoc.
  - rewrite !without_braces_app.
    rewrite !(without_braces_brace "{") by done.
    destruct (is_brace g2) eqn:Hg.
    + rewrite !(without_braces_brace g2) by done.
      rewrite (without_braces_brace "}") by done.
      by rewrite without_braces_app.
    + rewrite !(without_braces_other g2) by done.
      rewrite (without_braces_brace "}") by done.
      by rewrite without_braces_app.
  - rewrite !length_app. simpl. rewrite !length_app. simpl. lia.
Qed.

Lemma deletes_braces_consumes m : deletes_braces m → consumes m.
Proof.
  intros Hm s out rest Hs. destruct (Hm _ _ _ Hs) as (pre & -> & _ & Hlen).
  destruct pre as [|a pre]; [simpl in Hlen; lia|]. by exists a, pre.
Qed.

(** A substitution whose replacements only delete braces only deletes
    braces. *)
Lemma re_sub_without_braces m s :
  deletes_braces m → without_braces (re_sub m s) = without_braces s.
Proof.
  intros Hm.
  assert (∀ n s, length s ≤ n →
                 without_braces (re_sub m s) = without_braces s) as H;
    [|by eauto].
  clear s. induction n as [|n IH]; intros s Hlen.
  { by destruct s; [|simpl in Hlen; lia]. }
  destruct s as [|a s]; [done|].
  destruct (m (a :: s)) as [[out rest]|] eqn:Hs.
  - rewrite (re_sub_match m _ out rest) by (by try apply deletes_braces_consumes).
    destruct (Hm _ _ _ Hs) as (pre & Heq & Hwb & Hl). rewrite Heq.
    rewrite !without_braces_app, Hwb. f_equal. apply IH.
    apply (f_equal length) in Heq. rewrite length_app in Heq.
    simpl in *. lia.
  - rewrite re_sub_skip by done.
    destruct (is_brace a) eqn:Ha.
    + rewrite !(without_braces_brace a) by done. apply IH. simpl in Hlen. lia.
    + rewrite !(without_braces_other a) by done. f_equal.
      apply IH. simpl in Hlen. lia.
Qed.

(** It leaves the text as it is or makes it at least two characters
    shorter. *)
Lemma re_sub_shorter m s :
  deletes_braces m → re_sub m s = s ∨ length (re_sub m s) + 2 ≤ length s.
Proof.
  intros Hm.
  assert (∀ n s, length s ≤ n →
                 re_sub m s = s ∨ length (re_sub m s) + 2 ≤ length s) as H;
    [|by eauto].
  clear s. induction n as [|n IH]; intros s Hlen.
  { left. by destruct s; [|simpl in Hlen; lia]. }
  destruct s as [|a s]; [by left|].
  destruct (m (a :: s)) as [[out rest]|] eqn:Hs.
  - right.
    rewrite (re_sub_match m _ out rest) by (by try apply deletes_braces_consumes).
    destruct (Hm _ _ _ Hs) as (pre & Heq & _ & Hl).
    apply (f_equal length) in Heq. rewrite length_app in Heq.
    rewrite length_app. rewrite Heq.
    destruct (IH rest) as [->|?]; [simpl in *; lia|lia|lia].
  - rewrite re_sub_skip by done.
    destruct (IH s) as [->|?]; [simpl in Hlen; lia|by left|].
    right. simpl. lia.
Qed.

End CleanupDeletes.

(** ** When the cleanup is idempotent *)

Section CleanupTwice.

Implicit Types (s t u v : text) (a b c : ascii).

Lemma occurs_cons p a s : occurs p (a :: s) = p (a :: s) || occurs p s.
Proof. done. Qed.

Lemma occurs_app p pre s : p s = true → occurs p (pre ++ s) = true.
Proof.
  intros Hs. induction pre as [|a pre IH].
  - destruct s; simpl; by rewrite Hs.
  - simpl. rewrite IH. apply orb_true_r.
Qed.

Lemma letter_group_at_head a s :
  ascii_eqb "{" a = false → letter_group_at (a :: s) = false.
Proof. intros Ha. unfold letter_group_at. by rewrite letter_match_head. Qed.

Lemma letter_group_at_cons a c s :
  letter_group_at (a :: c :: s)
  = ascii_eqb "{" a && is_letter c && starts_close s.
Proof.
  unfold letter_group_at, letter_match. simpl.
  destruct (ascii_eqb "{" a); [|done]. simpl.
  destruct (is_letter c); [|done]. simpl.
  destruct s as [|e s]; [done|]. simpl. by destruct (ascii_eqb "}" e).
Qed.

Lemma nested_letter_at_head a s :
  ascii_eqb "{" a = false → nested_letter_at (a :: s) = false.
Proof. intros Ha. simpl. by rewrite Ha. Qed.

Lemma nested_letter_at_second a b s :
  ascii_eqb "{" b = false → nested_letter_at (a :: b :: s) = false.
Proof.
  intros Hb. unfold nested_letter_at. rewrite letter_match_head by done.
  apply andb_false_r.
Qed.

(** The second pass keeps the closing brace a text starts with, and puts
    none in front of another text. *)
Lemma starts_close_sub s :
  starts_close (re_sub letter_match s) = starts_close s.
Proof.
  destruct s as [|e s]; [done|].
  destruct (ascii_eqb "{" e) eqn:He.
  - apply ascii_eqb_true in He as <-.
    rewrite letter_sub_unfold.
    destruct (letter_match ("{" :: s)) as [[out rest]|] eqn:Hm; [|done].
    apply letter_match_Some in Hm as (c & Hc & _ & ->). simpl.
    by apply is_letter_not_close.
  - by rewrite letter_sub_keep.
Qed.

(** Where the second pattern does not match, a letter in braces stands
    in the result exactly if a letter in two pairs of braces stood
    there: the inner pair is the one deleted. *)
Lemma letter_group_after_skip a s :
  letter_match (a :: s) = None →
  letter_group_at (a :: re_sub letter_match s) = nested_letter_at (a :: s).
Proof.
  intros Hnone.
  destruct (ascii_eqb "{" a) eqn:Ha;
    [|by rewrite letter_group_at_head, nested_letter_at_head].
  unfold nested_letter_at. rewrite Ha. simpl.
  rewrite (letter_sub_unfold s).
  destruct s as [|b s].
  { unfold letter_group_at, letter_match. simpl. by rewrite Ha. }
  destruct (letter_match (b :: s)) as [[out rest]|] eqn:Hm.
  - apply letter_match_Some in Hm as (c & Hc & [= -> ->] & ->). simpl.
    by rewrite letter_group_at_cons, Ha, Hc, starts_close_sub.
  - rewrite letter_group_at_cons, Ha, starts_close_sub. simpl.
    destruct (is_letter b) eqn:Hb; [|done]. simpl.
    destruct (starts_close s) eqn:Hs; [|done]. exfalso.
    destruct s as [|e s]; [done|]. simpl in Hs.
    apply ascii_eqb_true in Ha as <-, Hs as <-.
    assert (letter_match ("{" :: b :: "}" :: s) = Some ([b], s)) as Hyes
      by (apply letter_match_Some; eauto).
    congruence.
Qed.

(** After the second pass a letter in braces is left exactly if the text
    held a letter in two pairs of braces. *)
Lemma letter_group_after_sub u :
  has_letter_group (re_sub letter_match u) = has_nested_letter u.
Proof.
  assert (∀ n u, length u ≤ n →
                 has_letter_group (re_sub letter_match u)
                 = has_nested_letter u) as H; [|by eauto].
  clear u. induction n as [|n IH]; intros u Hlen.
  { by destruct u; [|simpl in Hlen; lia]. }
  rewrite letter_sub_unfold. destruct u as [|a u]; [done|].
  unfold has_letter_group, has_nested_letter in *.
  destruct (letter_match (a :: u)) as [[out rest]|] eqn:Hm.
  - apply letter_match_Some in Hm as (c & Hc & [= -> ->] & ->).
    pose proof (is_letter_not_open c Hc) as Hc'.
    change ([c] ++ re_sub letter_match rest)
      with (c :: re_sub letter_match rest).
    rewrite occurs_cons, letter_group_at_head by done.
    rewrite (occurs_cons _ "{"), nested_letter_at_second by done.
    rewrite (occurs_cons _ c), nested_letter_at_head by done.
    rewrite (occurs_cons _ "}"), nested_letter_at_head by done.
    simpl. apply IH. simpl in Hlen. lia.
  - rewrite !occurs_cons, letter_group_after_skip by done.
    f_equal. apply IH. simpl in Hlen. lia.
Qed.

(** A text without a letter in braces is left as it is by the second
    pass... *)
Lemma letter_sub_fixed v :
  has_letter_group v = false → re_sub letter_match v = v.
Proof.
  unfold has_letter_group.
  induction v as [|a v IH]; [done|]. rewrite occurs_cons.
  intros [Ha Hv]%orb_false_elim. unfold letter_group_at in Ha.
  destruct (letter_match (a :: v)) eqn:Hm; [done|].
  rewrite re_sub_skip by done. f_equal. by apply IH.
Qed.

Lemma match_title_letter s g1 g2 g3 rest :
  match_title s = Some (g1, g2, g3, rest) → is_letter g2 = true.
Proof.
  unfold match_title.
  destruct (strip_prefix (str "title") s) as [s1|]; [|done].
  destruct (span is_space s1) as [ws1 s2].
  destruct (strip_prefix (str "=") s2) as [s3|]; [|done].
  destruct (span is_space s3) as [ws2 s4].
  destruct (strip_prefix (str "{{") s4) as [[|c s5]|]; try done.
  destruct (is_letter c) eqn:Hc; [|done].
  destruct (strip_prefix (str "}") s5) as [s6|]; [|done].
  destruct (break_at (ascii_eqb "}") s6) as [[g [|q r]]|]; try done.
  by intros [= <- <- <- <-].
Qed.

(** ... and by the first, whose matches hold a letter in braces. *)
Lemma merge_match_letter_group s out rest :
  merge_match s = Some (out, rest) → has_letter_group s = true.
Proof.
  unfold merge_match.
  destruct (match_title s) as [[[[g1 g2] g3] r]|] eqn:H; [|done].
  intros _. pose proof (match_title_letter _ _ _ _ _ H) as Hg2.
  apply match_title_shape in H as [-> _].
  change (g1 ++ "{" :: "{" :: g2 :: "}" :: g3 ++ "}" :: r)
    with (g1 ++ ["{"] ++ "{" :: g2 :: "}" :: g3 ++ "}" :: r).
  rewrite app_assoc. apply occurs_app.
  unfold letter_group_at.
  by rewrite (proj2 (letter_match_Some _ [g2] (g3 ++ "}" :: r)))
    by (exists g2; eauto).
Qed.

Lemma merge_fixed v :
  has_letter_group v = false → re_sub merge_match v = v.
Proof.
  induction v as [|a v IH]; [done|]. intros Hv.
  rewrite re_sub_skip.
  - f_equal. apply IH. unfold has_letter_group in *.
    rewrite occurs_cons in Hv. by apply orb_false_elim in Hv as [_ ?].
  - destruct (merge_match (a :: v)) as [[out rest]|] eqn:H; [|done].
    apply merge_match_letter_group in H. congruence.
Qed.

(** A text that the second pass leaves as it is holds no letter in
    braces. *)
Lemma letter_sub_changes v :
  re_sub letter_match v = v → has_letter_group v = false.
Proof.
  unfold has_letter_group.
  induction v as [|a v IH]; [done|]. rewrite letter_sub_unfold.
  destruct (letter_match (a :: v)) as [[out rest]|] eqn:Hm.
  - apply letter_match_Some in Hm as (c & Hc & [= -> ->] & ->).
    intros Heq. exfalso. apply (f_equal length) in Heq. simpl in Heq.
    destruct (re_sub_shorter letter_match rest letter_match_deletes_braces)
      as [Hr|Hr]; [rewrite Hr in Heq|]; lia.
  - intros [= Heq]. rewrite occurs_cons, (IH Heq).
    unfold letter_group_at. by rewrite Hm.
Qed.

(** So does a text that the cleanup leaves as it is. *)
Lemma cleanup_changes v :
  clean_protected_case v = v → has_letter_group v = false.
Proof.
  unfold clean_protected_case. intros Heq.
  destruct (re_sub_shorter merge_match v merge_match_deletes_braces)
    as [Hm|Hm].
  - rewrite Hm in Heq. by apply letter_sub_changes.
  - exfalso. apply (f_equal length) in Heq.
    destruct (re_sub_shorter letter_match (re_sub merge_match v)
                letter_match_deletes_braces) as [Hr|Hr];
      [rewrite Hr in Heq|]; lia.
Qed.

End CleanupTwice.

(** C2, as the code has it. A second application of the cleanup changes
    nothing exactly when the first pass of the first application (the
    merge of double-braced title initials) leaves no letter in two pairs
    of braces. Such a letter loses its inner pair in the first
    application and the outer one in the second; nothing else makes the
    two applications differ. *)
Theorem clean_protected_case_idempotent (t : text) :
  has_nested_letter (re_sub merge_match t) = false
  ↔ clean_protected_case (clean_protected_case t) = clean_protected_case t.
Proof.
  rewrite <- letter_group_after_sub. split.
  - intros Hg. change (clean_protected_case t)
      with (re_sub letter_match (re_sub merge_match t)).
    unfold clean_protected_case at 1.
    rewrite merge_fixed by done. by apply letter_sub_fixed.
  - apply cleanup_changes.
Qed.

(** A title in two pairs of braces, which starts with two adjacent
    opening braces, is cleaned once and for all. *)
Lemma clean_protected_case_idempotent_witness :
  let t := str "title = {{Attention Is All You Need}}" in
  has_double_open (re_sub merge_match t) = true
  ∧ has_nested_letter (re_sub merge_match t) = false
  ∧ clean_protected_case (clean_protected_case t) = clean_protected_case t.
Proof.
  intros t.
  assert (has_nested_letter (re_sub merge_match t) = false) as H
    by (vm_compute; reflexivity).
  split; [vm_compute; reflexivity|]. split; [exact H|].
  exact (proj1 (clean_protected_case_idempotent t) H).
Defined.

(** X1. The cleanup only deletes braces: without its braces, the text is
    what it was. No other character is removed, added or moved. *)
Theorem clean_protected_case_keeps_other_characters (t : text) :
  without_braces (clean_protected_case t) = without_braces t.
Proof.
  unfold clean_protected_case.
  rewrite re_sub_without_braces by apply letter_match_deletes_braces.
  apply re_sub_without_braces, merge_match_deletes_braces.
Qed.

(** X2. The cleanup never makes a text longer: it leaves the text as it
    is or returns one at least two characters shorter. So applying it
    again and again comes to a text that it leaves unchanged. *)
Theorem clean_protected_case_shorter (t : text) :
  clean_protected_case t = t
  ∨ length (clean_protected_case t) + 2 ≤ length t.
Proof.
  unfold clean_protected_case.
  pose proof (re_sub_shorter merge_match t merge_match_deletes_braces) as H1.
  pose proof (re_sub_shorter letter_match (re_sub merge_match t)
                letter_match_deletes_braces) as H2.
  destruct H1 as [H1|H1]; destruct H2 as [H2|H2].
  - left. by rewrite H2.
  - right. rewrite H1 in H2 at 2. lia.
  - right. rewrite H2. lia.
  - right. lia.
Qed.

(** ** The normal form of titles *)

Lemma lower_char_word c : is_word c = true → is_word (lower_char c) = true.
Proof. destruct c as [[] [] [] [] [] [] [] []]; vm_compute; congruence. Qed.

Lemma lower_char_idem c : lower_char (lower_char c) = lower_char c.
Proof. destruct c as [[] [] [] [] [] [] [] []]; reflexivity. Qed.

Lemma filter_word_lower (l : text) :
  Forall (fun c => is_word c = true) l →
  filter is_word (lower l) = lower l.
Proof.
  induction 1 as [|c l Hc _ IH]; [done|]. unfold lower in *. simpl.
  rewrite filter_cons_True by (by rewrite lower_char_word).
  by rewrite IH.
Qed.

(** X3. On titles of the Latin-1 range, the normal form is stable:
    normalizing a normal form changes nothing. There [str.lower] maps
    each character to one character, and a word character to a word
    character. (Beyond that range it need not: the lower case of U+0130
    is two characters, the second of which is not a word character.) *)
Theorem normalize_idempotent (s : text) :
  normalize (normalize s) = normalize s.
Proof.
  unfold normalize. rewrite filter_word_lower.
  - unfold lower. rewrite map_map. apply map_ext. intros c.
    apply lower_char_idem.
  - apply Forall_forall. intros c Hc.
    apply list_elem_of_filter in Hc as [Hc _]. by apply Is_true_true.
Qed.

(** ** The DOI read on an arXiv page *)

Lemma split_aux_pieces c k cur s :
  Forall (fun x => x ≠ c) cur →
  Forall (Forall (fun x => x ≠ c)) (split_aux [c] k cur s).
Proof.
  revert k cur. induction s as [|a s IH]; intros k cur Hcur; simpl.
  { constructor; [|constructor]. by apply Forall_rev. }
  destruct k as [|k]; [|by apply IH].
  destruct (ascii_eqb c a) eqn:Ha; simpl.
  - constructor; [by apply Forall_rev|]. by apply IH.
  - apply IH. constructor; [|done]. apply ascii_eqb_false in Ha. congruence.
Qed.

Lemma last_piece_Forall (P : text → Prop) l :
  P [] → Forall P l → P (last_piece l).
Proof.
  intros Hnil Hl. unfold last_piece.
  induction Hl as [|x l Hx Hl IH]; [done|]. simpl.
  by destruct l.
Qed.

(** X4. Whatever the abstract page holds, the identifier that
    [extract_arxiv_doi] returns contains no slash: it is what follows the
    last slash of the link. *)
Theorem extract_arxiv_doi_no_slash (E : Env) (arxiv_id d : text)
    (st st' : State) :
  extract_arxiv_doi E arxiv_id st = (Ok d, st') → "/" ∉ d.
Proof.
  unfold extract_arxiv_doi, mbind, M_bind, bind.
  destruct (http_get E (plain (ARXIV_ABS_URL ++ arxiv_id)) st)
    as [[resp|e] st1]; [|done].
  destruct (attr resp_text resp st1) as [[page|e] st2]; [|done].
  destruct (re_search match_href page) as [group1|]; [|done].
  intros [= <- <-].
  assert (Forall (fun x => x ≠ "/") (last_piece (split (str "/") group1))) as H.
  { apply last_piece_Forall; [constructor|].
    apply (split_aux_pieces "/" 0 [] group1). constructor. }
  intros Hin. rewrite Forall_forall in H. by apply (H "/").
Qed.

Lemma extract_arxiv_doi_no_slash_witness :
  extract_arxiv_doi (sample_env arxiv_server) (str "1234.5678") initial_state
  = (Ok (str "y"),
     {| used_dois := ∅; clock := 1;
        trace := [EvGet (plain (str "https://arxiv.org/abs/1234.5678"))] |})
  ∧ "/" ∉ str "y".
Proof.
  assert (extract_arxiv_doi (sample_env arxiv_server) (str "1234.5678")
            initial_state
          = (Ok (str "y"),
             {| used_dois := ∅; clock := 1;
                trace := [EvGet (plain (str "https://arxiv.org/abs/1234.5678"))]
             |})) as H by (vm_compute; reflexivity).
  split; [exact H|].
  exact (extract_arxiv_doi_no_slash _ _ _ _ _ H).
Defined.

(** ** The matches of the boundary scan *)

Section Matches.

Implicit Types (s pre : text) (m : Match) (ms : list Match).

Lemma covers_spans pos s ms pre i m :
  covers pos s ms → length pre = pos → ms !! i = Some m →
  pos ≤ m_start m
  ∧ m_start m < m_end m ≤ pos + length s
  ∧ m_block m = take (m_end m - m_start m) (drop (m_start m) (pre ++ s))
  ∧ (∀ m', ms !! S i = Some m' → m_end m ≤ m_start m').
Proof.
  revert pos s pre i m. induction ms as [|m0 ms IH]; intros pos s pre i m;
    [done|].
  intros (gap & rest & -> & Hne & Hs & He & Hc) Hpre Hi.
  assert (length (pre ++ gap ++ m_block m0) = m_end m0) as Hpre'
    by (rewrite !length_app; lia).
  destruct i as [|i]; simpl in Hi.
  - injection Hi as <-. split; [lia|]. split.
    { rewrite !length_app. destruct (m_block m0); [done|]. simpl in *. lia. }
    split.
    + replace (pre ++ gap ++ m_block m0 ++ rest)
        with ((pre ++ gap) ++ m_block m0 ++ rest) by by rewrite <- app_assoc.
      rewrite drop_app_length' by (rewrite length_app; lia).
      rewrite take_app_length' by lia. done.
    + intros m' Hm'.
      by destruct (IH _ _ _ 0 m' Hc Hpre' Hm') as (? & _).
  - destruct (IH _ _ _ i m Hc Hpre' Hi) as (H1 & H2 & H3 & H4).
    split; [lia|]. split; [rewrite !length_app; lia|]. split; [|done].
    rewrite H3. by rewrite <- !app_assoc.
Qed.

Lemma span_Forall f s u v : span f s = (u, v) → Forall (fun c => f c = true) u.
Proof.
  revert u v. induction s as [|a s IH]; simpl; intros u v.
  { intros [= <- <-]. constructor. }
  destruct (f a) eqn:Ha; [|intros [= <- <-]; constructor].
  destruct (span f s) as [u' v']. intros [= <- <-].
  constructor; [done|]. by eapply IH.
Qed.

Lemma break_at_Forall f s u v :
  break_at f s = Some (u, v) → Forall (fun c => f c = false) u.
Proof.
  revert u v. induction s as [|a s IH]; simpl; intros u v; [done|].
  destruct (f a) eqn:Ha; [intros [= <- <-]; constructor|].
  destruct (break_at f s) as [[u' v']|]; [|done].
  intros [= <- <-]. constructor; [done|]. by eapply IH.
Qed.

(** The text of a match: the marker, the key, the comma and the body. *)
Lemma match_entry_shape s key rest :
  match_entry s = Some (key, rest) →
  ∃ w body,
    s = ("@" :: w ++ "{" :: key ++ "," :: body) ++ rest
    ∧ w ≠ [] ∧ Forall (fun c => is_word c = true) w
    ∧ key ≠ [] ∧ "," ∉ key.
Proof.
  unfold match_entry, match_marker.
  destruct (strip_prefix (str "@") s) as [s1|] eqn:H1; [|done].
  destruct (span is_word s1) as [[|w ws] s2'] eqn:H2; [done|].
  destruct (strip_prefix (str "{") s2') as [s2|] eqn:H3; [|done].
  destruct (break_at (ascii_eqb ",") s2) as [[[|k ks] [|comma s3]]|] eqn:H4;
    try done.
  intros [= <- <-].
  pose proof (span_Forall _ _ _ _ H2) as Hw.
  pose proof (break_at_Forall _ _ _ _ H4) as Hk.
  apply break_at_head in H4 as Hc. destruct Hc as (q & r & [= <- <-] & Hq).
  apply ascii_eqb_true in Hq as <-.
  apply strip_prefix_Some in H1, H3. apply span_app in H2.
  apply break_at_app in H4. subst.
  exists (w :: ws), (scan_body "," s3).1. repeat split; try done.
  - rewrite (scan_body_app "," s3) at 1.
    generalize (scan_body "," s3).1, (scan_body "," s3).2. intros b r.
    change (str "@") with ["@"]. change (str "{") with ["{"]. simpl.
    do 2 f_equal. rewrite <- app_assoc. simpl. do 3 f_equal.
    by rewrite <- app_assoc.
  - intros Hin. rewrite Forall_forall in Hk. apply Hk in Hin.
    by apply ascii_eqb_false in Hin.
Qed.

Lemma finditer_aux_elem s pos k m :
  m ∈ finditer_aux pos k s →
  ∃ s' rest, match_entry s' = Some (m_key m, rest)
             ∧ m_block m = take (length s' - length rest) s'.
Proof.
  revert pos k. induction s as [|a s IH]; intros pos k; simpl.
  { by intros ?%elem_of_nil. }
  destruct k as [|k]; [|apply IH].
  destruct (match_entry (a :: s)) as [[key rest]|] eqn:Hm; [|apply IH].
  intros [->|Hin]%elem_of_cons; [|by eapply IH].
  by exists (a :: s), rest.
Qed.

Lemma finditer_aux_unmarked s pos :
  "@" ∉ s → finditer_aux pos 0 s = [].
Proof.
  revert pos. induction s as [|a s IH]; intros pos Hs; [done|]. simpl.
  assert (match_entry (a :: s) = None) as ->.
  { unfold match_entry, match_marker. simpl.
    destruct (ascii_eqb "@" a) eqn:Ha; [|done].
    apply ascii_eqb_true in Ha as <-. exfalso. apply Hs. left. }
  apply IH. intros Hin. apply Hs. by right.
Qed.

End Matches.

(** X5. The spans of the boundary scan: each is not empty and lies within
    the text, a span starts at or after the end of the one before, and
    group 0 of a match is the text of its span. *)
Theorem finditer_spans (raw_text : text) (i : nat) (m : Match) :
  finditer raw_text !! i = Some m →
  m_start m < m_end m ≤ length raw_text
  ∧ m_block m = take (m_end m - m_start m) (drop (m_start m) raw_text)
  ∧ (∀ m', finditer raw_text !! S i = Some m' → m_end m ≤ m_start m').
Proof.
  intros Hi.
  destruct (covers_spans 0 raw_text (finditer raw_text) [] i m
              (finditer_covers raw_text) eq_refl Hi) as (_ & H2 & H3 & H4).
  done.
Qed.

Lemma finditer_spans_witness :
  finditer same_doi_text !! 0
  = Some {| m_start := 0; m_end := 56; m_key := str "k1";
            m_block := str "@article{k1, doi={10.3/z}, url={https://example.com/p}}"
                       ++ [nl] |}
  ∧ 0 < 56 ≤ length same_doi_text.
Proof.
  assert (finditer same_doi_text !! 0
          = Some {| m_start := 0; m_end := 56; m_key := str "k1";
                    m_block := str "@article{k1, doi={10.3/z}, url={https://example.com/p}}"
                               ++ [nl] |}) as H by (vm_compute; reflexivity).
  split; [exact H|].
  exact (proj1 (finditer_spans same_doi_text 0 _ H)).
Defined.

(** X6. The text of every match of the boundary scan is an at sign, a
    non-empty run of word characters, an opening brace, the key, a comma
    and the body; the key is not empty and holds no comma. *)
Theorem finditer_match_shape (raw_text : text) (m : Match) :
  m ∈ finditer raw_text →
  ∃ w body,
    m_block m = "@" :: w ++ "{" :: m_key m ++ "," :: body
    ∧ w ≠ [] ∧ Forall (fun c => is_word c = true) w
    ∧ m_key m ≠ [] ∧ "," ∉ m_key m.
Proof.
  intros (s & rest & Hm & Hb)%finditer_aux_elem.
  apply match_entry_shape in Hm as (w & body & -> & Hw & Hww & Hk & Hkk).
  exists w, body. repeat split; try done.
  rewrite Hb, length_app.
  replace (length ("@" :: w ++ "{" :: m_key m ++ "," :: body) + length rest
           - length rest)
    with (length ("@" :: w ++ "{" :: m_key m ++ "," :: body)) by lia.
  apply take_app_length.
Qed.

Lemma finditer_match_shape_witness :
  let m := {| m_start := 0; m_end := 38; m_key := str "k";
              m_block := str "@misc{k, url={https://example.com/a}}"
                         ++ [nl] |} in
  m ∈ finditer same_key_text
  ∧ ∃ w body,
      m_block m = "@" :: w ++ "{" :: m_key m ++ "," :: body
      ∧ w ≠ [] ∧ Forall (fun c => is_word c = true) w
      ∧ m_key m ≠ [] ∧ "," ∉ m_key m.
Proof.
  intros m.
  assert (m ∈ finditer same_key_text) as H
    by (apply (list_elem_of_lookup_2 _ 0); vm_compute; reflexivity).
  split; [exact H|].
  exact (finditer_match_shape same_key_text m H).
Defined.

(** X7. A text without at sign, the empty text among them, holds no
    record: [process_bib_file] sends no request, leaves [used_dois] as it
    is and writes the text as it read it. *)
Theorem process_bib_file_unmarked (E : Env) (raw_text : text)
    (entries : list Entry) (st : State) :
  "@" ∉ raw_text →
  process_bib_file E raw_text entries st
  = (Ok raw_text, {| used_dois := used_dois st; clock := clock st;
                     trace := EvPrint Finished :: trace st |}).
Proof.
  intros Hraw. unfold process_bib_file, finditer.
  by rewrite finditer_aux_unmarked.
Qed.

Lemma process_bib_file_unmarked_witness :
  ("@" ∉ str "% no record here")
  ∧ process_bib_file (sample_env (always (status_response 500)))
      (str "% no record here") [] initial_state
    = (Ok (str "% no record here"),
       {| used_dois := ∅; clock := 0; trace := [EvPrint Finished] |}).
Proof.
  assert ("@" ∉ str "% no record here") as H.
  { intros Hin. apply list_elem_of_In in Hin. vm_compute in Hin.
    repeat (destruct Hin as [Hin|Hin]; [discriminate Hin|]). exact Hin. }
  split; [exact H|].
  exact (process_bib_file_unmarked
           (sample_env (always (status_response 500)))
           (str "% no record here") [] initial_state H).
Defined.

(** ** Which records can make the run fail *)

Section Failures.

Variable E : Env.

Lemma never_raises_ret {A} (a : A) : never_raises (ret a).
Proof. intros st. by exists a. Qed.

Lemma never_raises_bind {A B} (m : M A) (k : A → M B) :
  never_raises m → (∀ a, never_raises (k a)) → never_raises (m ≫= k).
Proof.
  intros Hm Hk st. unfold mbind, M_bind, bind.
  destruct (Hm st) as [a Ha]. destruct (m st) as [[a'|e] st1]; [|done].
  apply Hk.
Qed.

Lemma never_raises_try {A} (m : M A) (h : exn → M A) :
  (∀ e, never_raises (h e)) → never_raises (try_except m h).
Proof.
  intros Hh st. unfold try_except.
  destruct (m st) as [[a|e] st1]; [by exists a|]. apply Hh.
Qed.

Lemma never_raises_emit ev : never_raises (emit ev).
Proof. intros st. by exists tt. Qed.

Lemma never_raises_branch_arxiv (doi : option text) urlf repl :
  never_raises (branch_arxiv E doi urlf repl).
Proof.
  unfold branch_arxiv. case_match; [|apply never_raises_ret].
  apply never_raises_try. intros _. apply never_raises_ret.
Qed.

Lemma never_raises_branch_metadata key ent (doi : option text) repl :
  never_raises (branch_metadata E key ent doi repl).
Proof.
  unfold branch_metadata. case_match; [|apply never_raises_ret].
  apply never_raises_try. intros e.
  apply never_raises_bind; [apply never_raises_emit|].
  intros _. apply never_raises_ret.
Qed.

Lemma never_raises_process_entry key ent :
  truthy (fields ent !! str "doi") = false →
  never_raises (process_entry E key ent).
Proof.
  intros Hdoi. unfold process_entry.
  apply never_raises_bind; [apply never_raises_branch_arxiv|]. intros r2.
  apply never_raises_bind; [apply never_raises_branch_metadata|]. intros r3.
  apply never_raises_bind; [|intros; apply never_raises_ret].
  unfold branch_doi. destruct (fields ent !! str "doi") as [[|c d]|];
    try apply never_raises_ret. done.
Qed.

Lemma never_raises_process_raw_block block :
  never_raises (process_raw_block E block).
Proof.
  unfold process_raw_block.
  apply never_raises_bind; [|intros [r|]; apply never_raises_ret].
  destruct (raw_block_doi block) as [[|c d]|]; try apply never_raises_ret.
  intros st. unfold mbind at 1, M_bind at 1, bind at 1, get_used.
  case_bool_decide; [|apply never_raises_ret].
  apply never_raises_try. intros _. apply never_raises_ret.
Qed.

(** What [structured] holds under a key is a loaded entry of that key. *)
Lemma structured_of_elem entries k e :
  structured_of entries !! k = Some e → e ∈ entries ∧ ID e = k.
Proof.
  unfold structured_of.
  assert (∀ d0 : gmap text Entry,
            fold_left (fun d e0 => <[ID e0:=e0]> d) entries d0 !! k = Some e →
            (e ∈ entries ∧ ID e = k) ∨ d0 !! k = Some e) as H.
  { induction entries as [|e0 entries IH]; intros d0; simpl; [by right|].
    intros [[Hin Hk]|Hd]%IH.
    - left. split; [by right|done].
    - destruct (decide (ID e0 = k)) as [Heq|Hne].
      + rewrite <- Heq, lookup_insert_eq in Hd. injection Hd as <-.
        left. split; [left|done].
      + rewrite lookup_insert_ne in Hd by done. by right. }
  intros [?|Hd]%H; [done|]. by rewrite lookup_empty in Hd.
Qed.

(** It holds nothing under a key that no loaded entry has. *)
Lemma structured_of_None entries k :
  (∀ e, e ∈ entries → ID e ≠ k) → structured_of entries !! k = None.
Proof.
  intros Hk. destruct (structured_of entries !! k) as [e|] eqn:He; [|done].
  apply structured_of_elem in He as [Hin Heq]. by apply Hk in Hin.
Qed.

Lemma never_raises_process_matches structured ms :
  (∀ k e, structured !! k = Some e →
          truthy (fields e !! str "doi") = false) →
  never_raises (process_matches E structured ms).
Proof.
  intros Hs. induction ms as [|m ms IH]; simpl; [apply never_raises_ret|].
  apply never_raises_bind.
  - unfold process_match.
    apply never_raises_bind; [|intros; apply never_raises_ret].
    destruct (structured !! m_key m) as [ent|] eqn:Hent.
    + by eapply never_raises_process_entry, Hs.
    + apply never_raises_process_raw_block.
  - intros r. apply never_raises_bind; [done|].
    intros; apply never_raises_ret.
Qed.

End Failures.

(** X8. Only the direct-DOI branch lets a failure out. When no loaded
    entry has a DOI field, [process_bib_file] returns its text whatever
    the servers answer: the failures of the arXiv branch, of the metadata
    search and of the raw-block branch are all caught. *)
Theorem process_bib_file_without_doi_returns (E : Env) (raw_text : text)
    (entries : list Entry) (st : State) :
  (∀ e, e ∈ entries → truthy (fields e !! str "doi") = false) →
  ∃ out, (process_bib_file E raw_text entries st).1 = Ok out.
Proof.
  intros Hdoi. unfold process_bib_file.
  apply never_raises_bind.
  - apply never_raises_process_matches. intros k e He.
    apply structured_of_elem in He as [Hin _]. by apply Hdoi.
  - intros rs. apply never_raises_bind; [apply never_raises_emit|].
    intros _. apply never_raises_ret.
Qed.

Lemma process_bib_file_without_doi_returns_witness :
  (∀ e, e ∈ [arxiv_entry] → truthy (fields e !! str "doi") = false)
  ∧ ∃ out, (process_bib_file (sample_env (always (status_response 500)))
              (str "@misc{k, url={https://arxiv.org/abs/1234.5678}}")
              [arxiv_entry] initial_state).1 = Ok out.
Proof.
  assert (∀ e, e ∈ [arxiv_entry] →
               truthy (fields e !! str "doi") = false) as H.
  { intros e He. apply list_elem_of_singleton in He as ->. reflexivity. }
  split; [exact H|].
  exact (process_bib_file_without_doi_returns _ _ _ _ H).
Defined.

(** X9. A match whose key is the key of no loaded entry is handled as a
    raw block: its replacement is what [process_raw_block] makes of
    group 0. *)
Theorem unknown_key_is_raw_block (E : Env) (entries : list Entry)
    (m : Match) :
  (∀ e, e ∈ entries → ID e ≠ m_key m) →
  process_match E (structured_of entries) m
  = (repl ← process_raw_block E (m_block m);
     mret {| r_start := m_start m; r_end := m_end m; r_text := repl |}).
Proof.
  intros Hk. unfold process_match. by rewrite structured_of_None.
Qed.

Lemma unknown_key_is_raw_block_witness :
  let E := sample_env (always (status_response 500)) in
  let m := {| m_start := 0; m_end := 38; m_key := str "k";
              m_block := str "@misc{k, url={https://example.com/a}}"
                         ++ [nl] |} in
  (∀ e, e ∈ one_doi_entries → ID e ≠ m_key m)
  ∧ process_match E (structured_of one_doi_entries) m
    = (repl ← process_raw_block E (m_block m);
       mret {| r_start := m_start m; r_end := m_end m; r_text := repl |}).
Proof.
  intros E m.
  assert (∀ e, e ∈ one_doi_entries → ID e ≠ m_key m) as H.
  { intros e He. apply list_elem_of_singleton in He as ->. discriminate. }
  split; [exact H|].
  exact (unknown_key_is_raw_block E one_doi_entries m H).
Defined.

(** X10. A parsed record without DOI whose link is not empty and names
    neither the DOI resolver nor an arXiv abstract is resolved locally:
    the replacement is the cleaned [@misc] block, no request is sent and
    the state of the run is left as it was. *)
Theorem url_only_record_is_local (E : Env) (key : text) (ent : Entry)
    (st : State) :
  let urlf := strip (get_field ent "url") in
  truthy (fields ent !! str "doi") = false →
  urlf ≠ [] →
  contains (str "doi.org") urlf = false →
  contains (str "arxiv.org/abs") urlf = false →
  process_entry E key ent st
  = (Ok (clean_protected_case
           (misc_block key (get_field ent "author")
              (strip (replace_char nl " " (get_field ent "title")))
              urlf
              (default (today_year E) (fields ent !! str "year"))
              (today_iso E))),
     st).
Proof.
  intros urlf Hdoi Hurl Hd Ha.
  assert (nonempty urlf = true) as Hne by (by destruct urlf).
  unfold process_entry, branch_url_only, branch_arxiv, branch_metadata,
    branch_doi. fold urlf.
  rewrite Hd, Ha, Hne.
  destruct (fields ent !! str "doi") as [[|c d]|]; [|discriminate Hdoi|];
    simpl; unfold mbind, M_bind, bind, mret, M_ret, ret; done.
Qed.

Lemma url_only_record_is_local_witness :
  let E := sample_env (always (status_response 500)) in
  let ent := entry_of "k" [("url", " https://example.com/paper ");
                           ("year", "2019")]%string in
  process_entry E (str "k") ent initial_state
  = (Ok (misc_block (str "k") [] [] (str "https://example.com/paper")
           (str "2019") (str "2025-06-01")),
     initial_state).
Proof.
  intros E ent.
  rewrite (url_only_record_is_local E (str "k") ent initial_state);
    [vm_compute; reflexivity|reflexivity|vm_compute; discriminate
    |vm_compute; reflexivity|vm_compute; reflexivity].
Defined.

(** ** Every replacement is cleaned *)

Section Cleaned.

Variable E : Env.


Lemma yields_raise {A} (P : A → Prop) e : yields P (raise e).
Proof. by intros st a st'. Qed.










End Cleaned.



(** ** Requests and waits of a run *)

Section Cost.

Variable E : Env.

Lemma costs_weaken {A} n s n' s' (m : M A) :
  costs n s m → n ≤ n' → s ≤ s' → costs n' s' m.
Proof. intros Hm Hn Hs st. destruct (Hm st). split; lia. Qed.

Lemma costs_ret {A} (a : A) : costs 0 0 (ret a).
Proof. intros st. split; simpl; lia. Qed.

Lemma costs_raise {A} e : costs 0 0 (@raise A e).
Proof. intros st. split; simpl; lia. Qed.

Lemma costs_bind {A B} n1 s1 n2 s2 (m : M A) (k : A → M B) :
  costs n1 s1 m → (∀ a, costs n2 s2 (k a)) →
  costs (n1 + n2) (s1 + s2) (m ≫= k).
Proof.
  intros Hm Hk st. unfold mbind, M_bind, bind.
  destruct (Hm st) as [H1 H2]. destruct (m st) as [[a|e] st1]; simpl in *.
  - destruct (Hk a st1). split; lia.
  - split; lia.
Qed.

Lemma costs_try {A} n1 s1 n2 s2 (m : M A) (h : exn → M A) :
  costs n1 s1 m → (∀ e, costs n2 s2 (h e)) →
  costs (n1 + n2) (s1 + s2) (try_except m h).
Proof.
  intros Hm Hh st. unfold try_except.
  destruct (Hm st) as [H1 H2]. destruct (m st) as [[a|e] st1]; simpl in *.
  - split; lia.
  - destruct (Hh e st1). split; lia.
Qed.

Lemma costs_get_used : costs 0 0 get_used.
Proof. intros st. split; simpl; lia. Qed.

Lemma costs_used_add doi : costs 0 0 (used_add doi).
Proof. intros st. split; simpl; lia. Qed.

Lemma costs_print l : costs 0 0 (print l).
Proof. intros st. split; simpl; lia. Qed.

Lemma costs_sleep secs : costs 0 secs (sleep secs).
Proof. intros st. split; simpl; lia. Qed.

Lemma costs_requests_get req : costs 1 0 (requests_get E req).
Proof.
  intros st. unfold requests_get.
  destruct (server E (clock st) req); split; simpl; lia.
Qed.

Lemma costs_raise_for_status resp : costs 0 0 (raise_for_status resp).
Proof.
  unfold raise_for_status.
  destruct (is_error_status _); [apply costs_raise|apply costs_ret].
Qed.

Lemma costs_attr {A} (f : Response → A) r : costs 0 0 (attr f r).
Proof. destruct r; [apply costs_ret|apply costs_raise]. Qed.

Lemma costs_http_get_loop attempts req resp :
  costs (length attempts) (total_backoff attempts)
        (http_get_loop E attempts req resp).
Proof.
  revert resp. induction attempts as [|a rest IH]; intros resp; simpl.
  - destruct resp; [|apply costs_raise].
    apply (costs_bind 0 0 0 0); [apply costs_raise_for_status|].
    intros _. apply costs_ret.
  - unfold total_backoff. simpl. fold (total_backoff rest).
    apply (costs_bind 1 0 (length rest)
             (BACKOFF_FACTOR * 2 ^ (a - 1) + total_backoff rest));
      [apply costs_requests_get|]. intros r.
    destruct (status_code r =? 429)%nat.
    + apply (costs_bind 0 0 _ _); [apply costs_print|]. intros _.
      apply (costs_bind 0 _ _ _); [apply costs_sleep|]. intros _. apply IH.
    + eapply costs_weaken; [|apply Nat.le_0_l..].
      apply (costs_bind 0 0 0 0); [apply costs_raise_for_status|].
      intros _. apply costs_ret.
Qed.

(** One call of [http_get]: three requests and seven seconds at most. *)
Lemma costs_http_get req : costs 3 7 (http_get E req).
Proof. apply (costs_http_get_loop (seq 1 MAX_RETRIES)). Qed.

(** A call of [http_get] that returns, or raises the error of a response
    other than 429, has slept three seconds at most: the waits after the
    first and the second attempt. *)
Lemma http_get_light req : costs_when light 3 7 3 (http_get E req).
Proof.
  intros st. split; [apply costs_http_get|].
  unfold http_get, MAX_RETRIES. simpl seq.
  destruct (is_429 (server E (clock st) req)) eqn:H0.
  2: { rewrite http_get_loop_final by done. simpl. lia. }
  destruct (server E (clock st) req) as [r0|] eqn:Hs0; [|done].
  apply Nat.eqb_eq in H0.
  rewrite (http_get_loop_429 E _ _ _ _ _ r0) by done.
  set (st1 := after_429 req 1 st).
  destruct (is_429 (server E (clock st1) req)) eqn:H1.
  2: { rewrite http_get_loop_final by done. simpl. lia. }
  destruct (server E (clock st1) req) as [r1|] eqn:Hs1; [|done].
  apply Nat.eqb_eq in H1.
  rewrite (http_get_loop_429 E _ _ _ _ _ r1) by done.
  set (st2 := after_429 req 2 st1).
  destruct (is_429 (server E (clock st2) req)) eqn:H2.
  2: { rewrite http_get_loop_final by done. simpl. lia. }
  destruct (server E (clock st2) req) as [r2|] eqn:Hs2; [|done].
  apply Nat.eqb_eq in H2.
  rewrite (http_get_loop_429 E _ _ _ _ _ r2) by done.
  rewrite http_get_loop_exhausted by done. simpl. done.
Qed.

(** Continuations that leave the state alone keep this. *)
Lemma costs_when_light_bind {A B} n s l (m : M A) (k : A → M B) :
  costs_when light n s l m → (∀ a st, (k a st).2 = st) →
  costs_when light n s l (m ≫= k).
Proof.
  intros Hm Hk st. unfold mbind, M_bind, bind.
  destruct (Hm st) as [H1 H2]. destruct (m st) as [[a|e] st1]; simpl in *.
  - rewrite Hk. split; [done|]. intros _. by apply H2.
  - done.
Qed.

Lemma costs_when_weaken {A} (good good' : Res A → Prop) n s l (m : M A) :
  costs_when good n s l m → (∀ r, good' r → good r) →
  costs_when good' n s l m.
Proof.
  intros Hm Hg st. destruct (Hm st) as [H1 H2]. split; [done|].
  intros H. by apply H2, Hg.
Qed.

(** A computation followed by another, when the first has slept little if
    it returned. *)
Lemma costs_after {A B} n1 s1 l1 n2 s2 n s (m : M A) (k : A → M B) :
  costs_when is_Ok n1 s1 l1 m → (∀ a, costs n2 s2 (k a)) →
  n1 + n2 ≤ n → s1 ≤ s → l1 + s2 ≤ s →
  costs n s (m ≫= k).
Proof.
  intros Hm Hk Hn Hs Hl st. unfold mbind, M_bind, bind.
  destruct (Hm st) as [[H1 H2] H3]. destruct (m st) as [[a|e] st1];
    simpl in *.
  - destruct (Hk a st1) as [H4 H5]. specialize (H3 I). split; lia.
  - split; lia.
Qed.

Lemma pure_attr {A} (f : Response → A) r st : (attr f r st).2 = st.
Proof. by destruct r. Qed.

(** One call of [fetch_bibtex_from_doi]: six requests and ten seconds at
    most. *)
Lemma costs_fetch_bibtex_from_doi doi :
  costs 6 10 (fetch_bibtex_from_doi E doi).
Proof.
  unfold fetch_bibtex_from_doi.
  apply (costs_bind 0 0 6 10); [apply costs_get_used|]. intros used.
  apply (costs_bind 0 0 6 10); [by intros st; split; simpl; lia|]. intros _.
  apply (costs_bind 6 10 0 0); [|intros; apply costs_ret].
  intros st. unfold try_except.
  destruct (costs_when_light_bind 3 7 3 (http_get E (plain (DOI2BIB_URL ++ doi)))
              (fun r => attr resp_text r) (http_get_light _)
              (fun a st0 => pure_attr resp_text a st0) st) as [[H1 H2] H3].
  destruct ((http_get E (plain (DOI2BIB_URL ++ doi))
             ≫= λ r, attr resp_text r) st) as [[a|e] st1]; simpl in *.
  { specialize (H3 I). split; lia. }
  destruct e as [resp| | | | | | |]; try (split; simpl; lia).
  destruct (status_code resp =? 404)%nat eqn:H404; [|split; simpl; lia].
  apply Nat.eqb_eq in H404.
  assert (slept (trace st1) ≤ slept (trace st) + 3) as H3'
    by (apply H3; lia).
  destruct (costs_bind 0 0 3 7 (print (Doi2bibMiss doi))
              (fun _ => r ← http_get E
                              {| req_url := CROSSREF_API_WORKS ++ "/" :: doi
                                   ++ str "/transform/application/x-bibtex";
                                 req_params := [];
                                 req_headers :=
                                   [(str "Accept", str "application/x-bibtex")]
                              |};
                        attr resp_text r)
              (costs_print _)
              (fun _ => costs_bind 3 7 0 0 _ _ (costs_http_get _)
                          (fun r => costs_attr resp_text r)) st1) as [H4 H5].
  split; simpl in *; lia.
Qed.

Lemma costs_first_exact target items : costs 0 0 (first_exact target items).
Proof.
  induction items as [|item rest IH]; simpl; [apply costs_ret|].
  apply (costs_bind 0 0 0 0).
  { destruct (candidate_title item); [apply costs_ret|apply costs_raise]. }
  intros cand. destruct (text_eqb _ _); [|done].
  destruct (item_DOI item); [apply costs_ret|apply costs_raise].
Qed.

Lemma pure_first_exact target items st : (first_exact target items st).2 = st.
Proof. apply first_exact_state. Qed.

(** The two resolvers that ask one server: three requests, and three
    seconds when they return. *)
Lemma costs_search_doi_by_metadata title author :
  costs_when is_Ok 3 7 3 (search_doi_by_metadata E title author).
Proof.
  unfold search_doi_by_metadata.
  apply (costs_when_weaken light is_Ok 3 7 3); [|by intros [a|e]].
  apply (costs_when_light_bind 3 7 3); [apply http_get_light|].
  intros resp st. unfold mbind, M_bind, bind.
  destruct resp as [resp|]; [|done]. unfold attr, ret. cbv beta iota.
  destruct (resp_json resp) as [[|it items]|]; try done. cbv beta iota.
  pose proof (pure_first_exact (normalize (clean_title title)) (it :: items) st)
    as Hp.
  destruct (first_exact (normalize (clean_title title)) (it :: items) st)
    as [[[d|]|e] st1]; done.
Qed.

Lemma costs_extract_arxiv_doi aid :
  costs_when is_Ok 3 7 3 (extract_arxiv_doi E aid).
Proof.
  unfold extract_arxiv_doi.
  apply (costs_when_weaken light is_Ok 3 7 3); [|by intros [a|e]].
  apply (costs_when_light_bind 3 7 3); [apply http_get_light|].
  intros resp st. unfold mbind, M_bind, bind.
  destruct resp as [resp|]; simpl; [|done].
  by destruct (re_search match_href (resp_text resp)).
Qed.

Lemma costs_fetch_then_add doi (k : M (option text)) :
  costs 0 0 k →
  costs 6 10 (used ← get_used;
              if bool_decide (doi ∉ used) then
                fetched ← fetch_bibtex_from_doi E doi;
                used_add doi;; mret (Some fetched)
              else k).
Proof.
  intros Hk. apply (costs_bind 0 0 6 10); [apply costs_get_used|].
  intros used.
  case_bool_decide; [|eapply costs_weaken; [apply Hk|lia..]].
  apply (costs_bind 6 10 0 0); [apply costs_fetch_bibtex_from_doi|].
  intros fetched.
  apply (costs_bind 0 0 0 0); [apply costs_used_add|intros; apply costs_ret].
Qed.

Lemma costs_branch_arxiv (doi : option text) urlf repl :
  costs (if truthy doi then 0 else 9) (if truthy doi then 0 else 13)
        (branch_arxiv E doi urlf repl).
Proof.
  unfold branch_arxiv. destruct (truthy doi).
  { rewrite andb_false_r. apply costs_ret. }
  case_match; [|eapply costs_weaken; [apply costs_ret|lia..]].
  apply (costs_try 9 13 0 0); [|intros; apply costs_ret].
  apply (costs_after 3 7 3 6 10); [apply costs_extract_arxiv_doi| |lia..].
  intros arxiv_doi. apply costs_fetch_then_add, costs_ret.
Qed.

Lemma costs_branch_metadata key ent (doi : option text) repl :
  costs (if truthy doi then 0 else 9) (if truthy doi then 0 else 13)
        (branch_metadata E key ent doi repl).
Proof.
  unfold branch_metadata. destruct (truthy doi).
  { rewrite andb_false_r. apply costs_ret. }
  case_match; [|eapply costs_weaken; [apply costs_ret|lia..]].
  apply (costs_try 9 13 0 0).
  - apply (costs_after 3 7 3 6 10);
      [apply costs_search_doi_by_metadata| |lia..].
    intros found. apply costs_fetch_then_add.
    apply (costs_bind 0 0 0 0); [apply costs_print|intros; apply costs_ret].
  - intros e.
    apply (costs_bind 0 0 0 0); [apply costs_print|intros; apply costs_ret].
Qed.

Lemma costs_branch_doi (doi : option text) repl :
  costs (if truthy doi then 6 else 0) (if truthy doi then 10 else 0)
        (branch_doi E doi repl).
Proof.
  unfold branch_doi. destruct doi as [[|c d]|]; simpl; try apply costs_ret.
  case_match; [|eapply costs_weaken; [apply costs_ret|lia..]].
  apply costs_fetch_then_add, costs_ret.
Qed.

(** One parsed record: eighteen requests and twenty-six seconds at
    most. *)
Lemma costs_process_entry key ent : costs 18 26 (process_entry E key ent).
Proof.
  unfold process_entry.
  pose proof (costs_branch_arxiv (fields ent !! str "doi")) as H2.
  pose proof (costs_branch_metadata key ent (fields ent !! str "doi")) as H3.
  pose proof (costs_branch_doi (fields ent !! str "doi")) as H4.
  destruct (truthy (fields ent !! str "doi")).
  - apply (costs_bind 0 0 18 26); [apply H2|]. intros r2.
    apply (costs_bind 0 0 18 26); [apply H3|]. intros r3.
    apply (costs_bind 18 26 0 0); [|intros; apply costs_ret].
    eapply costs_weaken; [apply H4|lia..].
  - apply (costs_bind 9 13 9 13); [apply H2|]. intros r2.
    apply (costs_bind 9 13 0 0); [apply H3|]. intros r3.
    apply (costs_bind 0 0 0 0); [apply H4|intros; apply costs_ret].
Qed.

Lemma costs_process_raw_block block :
  costs 18 26 (process_raw_block E block).
Proof.
  unfold process_raw_block.
  apply (costs_bind 18 26 0 0); [|intros [r|]; apply costs_ret].
  destruct (raw_block_doi block) as [[|c d]|];
    try (eapply costs_weaken; [apply costs_ret|lia..]).
  apply (costs_bind 0 0 18 26); [apply costs_get_used|]. intros used.
  case_bool_decide; [|eapply costs_weaken; [apply costs_ret|lia..]].
  apply (costs_try 18 26 0 0); [|intros; apply costs_ret].
  eapply costs_weaken; [|apply (Nat.le_trans 6 6 18); lia
                        |apply (Nat.le_trans 10 10 26); lia].
  apply (costs_bind 6 10 0 0); [apply costs_fetch_bibtex_from_doi|].
  intros fetched.
  apply (costs_bind 0 0 0 0); [apply costs_used_add|intros; apply costs_ret].
Qed.

Lemma costs_process_matches structured ms :
  costs (18 * length ms) (26 * length ms) (process_matches E structured ms).
Proof.
  induction ms as [|m ms IH]; simpl length.
  { apply costs_ret. }
  replace (18 * S (length ms)) with (18 + (18 * length ms + 0)) by lia.
  replace (26 * S (length ms)) with (26 + (26 * length ms + 0)) by lia.
  simpl process_matches.
  apply costs_bind.
  - unfold process_match.
    apply (costs_bind 18 26 0 0); [|intros; apply costs_ret].
    destruct (structured !! m_key m);
      [apply costs_process_entry|apply costs_process_raw_block].
  - intros r. apply costs_bind; [apply IH|intros; apply costs_ret].
Qed.

End Cost.

(** X12. A run is bounded by the number of records found: for each match
    of the boundary scan, [process_bib_file] sends at most eighteen
    requests and sleeps at most twenty-six seconds in backoff, whatever
    the servers answer. *)
Theorem process_bib_file_cost (E : Env) (raw_text : text)
    (entries : list Entry) (st : State) :
  let st' := (process_bib_file E raw_text entries st).2 in
  let records := length (finditer raw_text) in
  sent_requests (trace st') ≤ sent_requests (trace st) + 18 * records
  ∧ slept (trace st') ≤ slept (trace st) + 26 * records.
Proof.
  intros st' records. subst st'. unfold process_bib_file.
  pose proof (costs_bind (18 * records) (26 * records) 0 0
                (process_matches E (structured_of entries) (finditer raw_text))
                (fun replacements =>
                   print Finished;;
                   ret (apply_replacements raw_text replacements))
                (costs_process_matches E _ _)) as H.
  destruct (H ltac:(intros; apply (costs_bind 0 0 0 0);
                    [apply costs_print|intros; apply costs_ret]) st)
    as [H1 H2].
  split; lia.
Qed.

(** ** What a record adds to the duplicate guard *)

Section Records.

Variable E : Env.

Lemma fetch_then_add_step doi (k : M (option text)) st :
  (∀ st0, used_dois (k st0).2 = used_dois st0) →
  branch_step st
    ((used ← get_used;
      if bool_decide (doi ∉ used) then
        fetched ← fetch_bibtex_from_doi E doi;
        used_add doi;; mret (Some fetched)
      else k) st).
Proof.
  intros Hk. unfold mbind at 1, M_bind at 1, bind at 1, get_used.
  case_bool_decide as Hd; [|left; apply Hk].
  unfold mbind, M_bind, bind, mret, M_ret, ret, used_add.
  destruct (fetch_bibtex_from_doi_step E doi st) as [Hu _]. simpl in Hu.
  destruct (fetch_bibtex_from_doi E doi st) as [[fetched|e] st1]; simpl in *.
  - right. exists doi, fetched. by rewrite Hu.
  - by left.
Qed.

Lemma try_except_step (m : M (option text)) h st :
  branch_step st (m st) →
  (∀ e st0, used_dois (h e st0).2 = used_dois st0) →
  branch_step st (try_except m h st).
Proof.
  intros Hm Hh. unfold try_except.
  destruct (m st) as [[a|e] st1] eqn:Hst; [done|].
  left. rewrite Hh. by destruct Hm as [?|(d & t & ? & _)].
Qed.

Lemma quiet_bind_step {A} (m : M A) (k : A → M (option text)) st :
  quiet m → (∀ a st0, branch_step st0 (k a st0)) →
  branch_step st ((m ≫= k) st).
Proof.
  intros Hm Hk. unfold mbind, M_bind, bind.
  destruct (Hm st) as [Hu _].
  destruct (m st) as [[a|e] st1]; simpl in Hu; [|by left].
  destruct (Hk a st1) as [H|(d & t & H1 & H2 & H3)].
  - left. by rewrite H.
  - right. exists d, t. by rewrite <- Hu.
Qed.

Lemma branch_arxiv_step (doi : option text) urlf repl st :
  branch_step st (branch_arxiv E doi urlf repl st).
Proof.
  unfold branch_arxiv. case_match; [|by left].
  apply try_except_step; [|done].
  apply quiet_bind_step; [apply quiet_extract_arxiv_doi|].
  intros arxiv_doi st0. by apply fetch_then_add_step.
Qed.

Lemma branch_metadata_step key ent (doi : option text) repl st :
  branch_step st (branch_metadata E key ent doi repl st).
Proof.
  unfold branch_metadata. case_match; [|by left].
  apply try_except_step; [|done].
  apply quiet_bind_step; [apply quiet_search_doi_by_metadata|].
  intros found st0. by apply fetch_then_add_step.
Qed.

Lemma branch_doi_step (doi : option text) repl st :
  branch_step st (branch_doi E doi repl st).
Proof.
  unfold branch_doi. destruct doi as [[|c d]|]; try by left.
  case_match; [|by left]. by apply fetch_then_add_step.
Qed.

(** A branch that finds a replacement made passes it on. *)
Lemma branch_metadata_skip key ent (doi : option text) t st :
  branch_metadata E key ent doi (Some t) st = (Ok (Some t), st).
Proof. done. Qed.

Lemma branch_doi_skip (doi : option text) t st :
  branch_doi E doi (Some t) st = (Ok (Some t), st).
Proof. unfold branch_doi. by destruct doi as [[|c d]|]. Qed.

Lemma used_dois_process_entry key ent st :
  adds_at_most_one st (process_entry E key ent st).2.
Proof.
  unfold process_entry, mbind, M_bind, bind, mret, M_ret, ret.
  set (doi := fields ent !! str "doi").
  set (urlf := strip (get_field ent "url")).
  destruct (branch_arxiv_step doi urlf (branch_url_only E key ent doi urlf) st)
    as [H2|(d & t & H2 & Hd & Hu)];
    destruct (branch_arxiv E doi urlf _ st) as [[r2|e] st2]; simpl in *;
    try by left.
  - destruct (branch_metadata_step key ent doi r2 st2)
      as [H3|(d & t & H3 & Hd & Hu)];
      destruct (branch_metadata E key ent doi r2 st2) as [[r3|e] st3];
      simpl in *; try (left; congruence).
    + destruct (branch_doi_step doi r3 st3) as [H4|(d & t & H4 & Hd & Hu)];
        destruct (branch_doi E doi r3 st3) as [[r4|e] st4]; simpl in *;
        try (left; congruence).
      right. exists d. split; congruence.
    + injection H3 as ->. rewrite branch_doi_skip. simpl.
      right. exists d. split; congruence.
  - injection H2 as ->. rewrite branch_metadata_skip, branch_doi_skip. simpl.
    right. by exists d.
Qed.

Lemma used_dois_process_raw_block block st :
  adds_at_most_one st (process_raw_block E block st).2.
Proof.
  unfold process_raw_block. unfold mbind at 1, M_bind at 1, bind at 1.
  match goal with
  | |- context [let (_, _) := ?m st in _] =>
      assert (branch_step st (m st)) as Hm
  end.
  { destruct (raw_block_doi block) as [[|c d]|]; try by left.
    unfold mbind at 1, M_bind at 1, bind at 1, get_used.
    case_bool_decide as Hd; [|by left].
    apply try_except_step; [|done].
    unfold mbind, M_bind, bind, mret, M_ret, ret, used_add.
    destruct (fetch_bibtex_from_doi_step E (c :: d) st) as [Hu _].
    simpl in Hu.
    destruct (fetch_bibtex_from_doi E (c :: d) st) as [[fetched|e] st1];
      simpl in *; [|by left].
    right. exists (c :: d), fetched. by rewrite Hu. }
  match goal with
  | |- context [let (_, _) := ?m st in _] =>
      destruct (m st) as [[[t|]|e] st1]
  end; simpl in *.
  - destruct Hm as [?|(d & t' & _ & ? & ?)]; [by left|right; by exists d].
  - destruct Hm as [?|(d & t' & ? & _)]; [by left|done].
  - destruct Hm as [?|(d & t' & ? & _)]; [by left|done].
Qed.

End Records.

(** X13. A record adds at most one DOI to [used_dois], one that was not
    there: after the body of the loop, [used_dois] is what it was or has
    exactly one DOI more. *)
Theorem record_adds_at_most_one_doi (E : Env) (structured : gmap text Entry)
    (m : Match) (st : State) :
  let st' := (process_match E structured m st).2 in
  used_dois st' = used_dois st
  ∨ ∃ d, (d ∉ used_dois st) ∧ used_dois st' = {[d]} ∪ used_dois st.
Proof.
  intros st'. subst st'. unfold process_match, mbind, M_bind, bind, mret,
    M_ret, ret.
  destruct (structured !! m_key m) as [ent|].
  - pose proof (used_dois_process_entry E (m_key m) ent st) as H.
    by destruct (process_entry E (m_key m) ent st) as [[repl|e] st1].
  - pose proof (used_dois_process_raw_block E (m_block m) st) as H.
    by destruct (process_raw_block E (m_block m) st) as [[repl|e] st1].
Qed.

(** X14. The resolvers leave the duplicate guard alone: [http_get],
    [fetch_bibtex_from_doi], [search_doi_by_metadata] and
    [extract_arxiv_doi] return or raise with [used_dois] as they found
    it; only the loop of [process_bib_file] adds to it. *)
Theorem resolvers_leave_used_dois (E : Env) (st : State) :
  (∀ req, used_dois (http_get E req st).2 = used_dois st)
  ∧ (∀ doi, used_dois (fetch_bibtex_from_doi E doi st).2 = used_dois st)
  ∧ (∀ title author,
       used_dois (search_doi_by_metadata E title author st).2 = used_dois st)
  ∧ (∀ arxiv_id, used_dois (extract_arxiv_doi E arxiv_id st).2 = used_dois st).
Proof.
  repeat split.
  - intros req. apply quiet_http_get.
  - intros doi. apply (fetch_bibtex_from_doi_step E doi st).
  - intros title author. apply quiet_search_doi_by_metadata.
  - intros arxiv_id. apply quiet_extract_arxiv_doi.
Qed.

(** ** The two sources of [fetch_bibtex_from_doi] *)

(** X15. When doi2bib.org answers the first request with a status other
    than 429: a status that is no error gives the cleaned body of the
    answer; the status 404, and no other, sends the request to the
    CrossRef transform, with its [Accept] header, whose body is cleaned in
    turn; any other error status is raised at once and CrossRef is not
    asked. *)
Theorem fetch_bibtex_from_doi_sources (E : Env) (doi : text) (st : State)
    (r1 : Response) :
  server E (clock st) (plain (DOI2BIB_URL ++ doi)) = Replied r1 →
  status_code r1 ≠ 429 →
  fetch_bibtex_from_doi E doi st
  = if is_error_status (status_code r1) then
      if (status_code r1 =? 404)%nat then
        match http_get E (transform_request doi) (miss_printed doi st) with
        | (Ok (Some r2), st2) => (Ok (clean_protected_case (resp_text r2)), st2)
        | (Ok None, st2) => (Raise AttributeError, st2)
        | (Raise e, st2) => (Raise e, st2)
        end
      else (Raise (HTTPError r1), first_sent doi st)
    else (Ok (clean_protected_case (resp_text r1)), first_sent doi st).
Proof.
  intros Hs Hr.
  set (st0 := {| used_dois := used_dois st; clock := clock st;
                 trace := EvFetch doi (used_dois st) :: trace st |}).
  assert (http_get E (plain (DOI2BIB_URL ++ doi)) st0
          = (final_result (Replied r1), first_sent doi st)) as Hget.
  { unfold http_get, MAX_RETRIES. simpl seq.
    rewrite http_get_loop_final; change (clock st0) with (clock st);
      rewrite Hs; [done|].
    simpl. by apply Nat.eqb_neq. }
  unfold fetch_bibtex_from_doi, mbind, M_bind, bind, get_used, emit,
    try_except.
  cbv beta iota. fold st0. rewrite Hget. unfold final_result, attr, raise, ret.
  destruct (is_error_status (status_code r1)); cbv beta iota; [|done].
  destruct (status_code r1 =? 404)%nat; cbv beta iota; [|done].
  unfold print, emit. cbv beta iota.
  change {| used_dois := used_dois (first_sent doi st);
            clock := clock (first_sent doi st);
            trace := EvPrint (Doi2bibMiss doi) :: trace (first_sent doi st) |}
    with (miss_printed doi st).
  fold (transform_request doi).
  by destruct (http_get E (transform_request doi) (miss_printed doi st))
    as [[[r2|]|e] st2].
Qed.

Lemma fetch_bibtex_from_doi_sources_witness :
  let E := sample_env miss_first in
  server E (clock initial_state) (plain (DOI2BIB_URL ++ str "10.4/b"))
  = Replied (status_response 404)
  ∧ status_code (status_response 404) ≠ 429
  ∧ fetch_bibtex_from_doi E (str "10.4/b") initial_state
    = (Ok (str "@book{b, title={The book}}"),
       {| used_dois := ∅; clock := 2;
          trace := [EvGet (transform_request (str "10.4/b"));
                    EvPrint (Doi2bibMiss (str "10.4/b"));
                    EvGet (plain (str "https://doi2bib.org/bib/10.4/b"));
                    EvFetch (str "10.4/b") ∅] |}).
Proof.
  intros E.
  assert (server E (clock initial_state)
            (plain (DOI2BIB_URL ++ str "10.4/b"))
          = Replied (status_response 404)) as H1 by reflexivity.
  assert (status_code (status_response 404) ≠ 429) as H2 by discriminate.
  split; [exact H1|]. split; [exact H2|].
  rewrite (fetch_bibtex_from_doi_sources E _ _ _ H1 H2).
  vm_compute. reflexivity.
Defined.


(** ** What the raw-block branch and the metadata search read *)










(** ** How the branches and the loop compose *)

(** X20. The metadata branch at work: for a parsed record without DOI
    and without link, when the search returns a DOI that is not in
    [used_dois] and its citation is fetched, the fetched text is the
    replacement and the DOI is recorded. *)
Theorem metadata_record_is_fetched (E : Env) (key : text) (ent : Entry)
    (d fetched : text) (st st1 st2 : State) :
  truthy (fields ent !! str "doi") = false →
  strip (get_field ent "url") = [] →
  search_doi_by_metadata E (get_field ent "title") (get_field ent "author") st
  = (Ok d, st1) →
  d ∉ used_dois st →
  fetch_bibtex_from_doi E d st1 = (Ok fetched, st2) →
  process_entry E key ent st = (Ok fetched, recorded d st2).
Proof.
  intros Hdoi Hurl Hsearch Hd Hfetch.
  assert (used_dois st1 = used_dois st) as Hu.
  { pose proof (quiet_search_doi_by_metadata E (get_field ent "title")
                  (get_field ent "author") st) as [Hu _].
    by rewrite Hsearch in Hu. }
  unfold process_entry, branch_url_only, branch_arxiv, branch_metadata.
  rewrite Hurl, Hdoi.
  change (contains (str "arxiv.org/abs") []) with false.
  cbv beta iota delta [negb andb nonempty is_None].
  unfold mbind, M_bind, bind, mret, M_ret, ret, try_except.
  rewrite Hsearch. unfold get_used. cbv beta iota.
  rewrite bool_decide_eq_true_2 by (by rewrite Hu).
  rewrite Hfetch. unfold used_add. cbv beta iota.
  rewrite branch_doi_skip. done.
Qed.

Lemma metadata_record_is_fetched_witness :
  let E := sample_env search_server in
  let st2 := {| used_dois := ∅; clock := 2;
                trace := [EvGet (plain (str "https://doi2bib.org/bib/10.3/z"));
                          EvFetch (str "10.3/z") ∅;
                          EvGet (search_request (str "A new result") [])] |} in
  process_entry E (str "k3") titled_entry initial_state
  = (Ok (str "@article{z, title={A new result}}"),
     recorded (str "10.3/z") st2).
Proof.
  intros E st2.
  apply (metadata_record_is_fetched E (str "k3") titled_entry (str "10.3/z")
           (str "@article{z, title={A new result}}") initial_state
           {| used_dois := ∅; clock := 1;
              trace := [EvGet (search_request (str "A new result") [])] |}
           st2);
    [reflexivity|reflexivity|vm_compute; reflexivity|apply not_elem_of_empty
    |vm_compute; reflexivity].
Defined.

Lemma process_matches_app (E : Env) structured ms1 ms2 st :
  process_matches E structured (ms1 ++ ms2) st
  = (rs1 ← process_matches E structured ms1;
     rs2 ← process_matches E structured ms2;
     mret (rs1 ++ rs2)) st.
Proof.
  revert st. induction ms1 as [|m ms1 IH]; intros st; simpl.
  - unfold mbind, M_bind, bind, mret, M_ret, ret. simpl.
    by destruct (process_matches E structured ms2 st) as [[rs|e] st1].
  - unfold mbind, M_bind, bind, mret, M_ret, ret in *.
    destruct (process_match E structured m st) as [[r|e] st1]; [|done].
    rewrite IH.
    destruct (process_matches E structured ms1 st1) as [[rs1|e] st2]; [|done].
    by destruct (process_matches E structured ms2 st2) as [[rs2|e] st3].
Qed.

(** X21. The run stops at the first record whose resolution raises: the
    exception leaves the loop with the state of that moment, and the
    records after it are not processed. *)
Theorem process_matches_stops_at_failure (E : Env)
    (structured : gmap text Entry) (ms1 ms2 : list Match) (m : Match)
    (rs1 : list Replacement) (e : exn) (st st1 st2 : State) :
  process_matches E structured ms1 st = (Ok rs1, st1) →
  process_match E structured m st1 = (Raise e, st2) →
  process_matches E structured (ms1 ++ m :: ms2) st = (Raise e, st2).
Proof.
  intros H1 H2. rewrite process_matches_app.
  unfold mbind, M_bind, bind. rewrite H1. simpl.
  unfold mbind, M_bind, bind. by rewrite H2.
Qed.

Lemma process_matches_stops_at_failure_witness :
  let E := sample_env (always (status_response 500)) in
  let m1 := {| m_start := 0; m_end := 56; m_key := str "k1";
               m_block := str "@article{k1, doi={10.3/z}, url={https://example.com/p}}"
                          ++ [nl] |} in
  let m2 := {| m_start := 56; m_end := 112; m_key := str "k2";
               m_block := str "@article{k2, doi={10.3/z}, url={https://example.com/p}}"
                          ++ [nl] |} in
  let st2 := {| used_dois := ∅; clock := 1;
                trace := [EvGet (plain (str "https://doi2bib.org/bib/10.3/z"));
                          EvFetch (str "10.3/z") ∅] |} in
  process_matches E (structured_of same_doi_entries) ([] ++ m1 :: [m2])
    initial_state
  = (Raise (HTTPError (status_response 500)), st2).
Proof.
  intros E m1 m2 st2.
  apply (process_matches_stops_at_failure E _ [] [m2] m1 []
           (HTTPError (status_response 500)) initial_state initial_state st2);
    [reflexivity|vm_compute; reflexivity].
Defined.

(** The bound of eighteen requests and twenty-six seconds for a record
    is reached. *)
Example eighteen_requests :
  let st' := (process_entry (sample_env worst_server) (str "w") worst_entry
                initial_state).2 in
  sent_requests (trace st') = 18 ∧ slept (trace st') = 26.
Proof. vm_compute. done. Qed.
